(** * Drag-and-drop task moves of the Kanban board page

    A shallow embedding of [apps/web/app/board/[boardId]/page.tsx] (the
    drag handlers of [BoardPage]) and of the debounced member search of
    [BoardMembersModal], with the facts the specification states about
    them.

    JavaScript values are embedded as follows: ids are [string]s, array
    indices and positions are integers in [Z] ([findIndex] answers [-1]
    when nothing matches), [null] / [undefined] is [None], arrays are
    lists, a [Set] of ids is a [gset string]. *)

From Stdlib Require Import ZArith String.
From stdpp Require Import base option list strings gmap.

Local Open Scope string_scope.
Local Open Scope list_scope.
Local Open Scope Z_scope.

(* ================================================================== *)
(** ** Data model ([@/types]) *)
(* ================================================================== *)

(** Modelled from the spec: the type declarations of [@/types] are not
    among the sources.  Section 3: a task "has a stable identifier";
    [title] stands for the fields the handlers never read. *)
Module Task.
Record t := mk { id : string; title : string }.
End Task.

(** Modelled from the spec: the type declarations of [@/types] are not
    among the sources.  Section 3: a list "has a stable identifier and
    an ordered sequence of task references". *)
Module BoardList.
Record t := mk { id : string; tasks : list Task.t }.

Definition with_tasks (l : t) (ts : list Task.t) : t :=
  {| id := id l; tasks := ts |}.
End BoardList.

(** The keys of [ROLE_ICONS] and [ROLE_LABELS]. *)
Inductive BoardRole := admin | editor | viewer.

(** Modelled from the spec: the type declarations of [@/types] are not
    among the sources.  The fields are those [BoardMembersModal] reads
    of a member. *)
Module BoardMember.
Record t := mk { id : string; user_id : string; role : BoardRole }.
End BoardMember.

(** Modelled from the spec: the type declarations of [@/types] are not
    among the sources.  Section 3 and the glossary: a board is a
    "collection of lists", "with owner and members". *)
Module Board.
Record t := mk {
  id : string;
  owner_id : string;
  members : list BoardMember.t;
  lists : list BoardList.t
}.

Definition with_lists (b : t) (ls : list BoardList.t) : t :=
  {| id := id b; owner_id := owner_id b; members := members b; lists := ls |}.
End Board.

(** Modelled from the spec: [UserSearchResult] of [@/lib/api] is not
    among the sources.  The fields are those [BoardMembersModal] reads
    of a search result. *)
Module UserSearchResult.
Record t := mk {
  id : string;
  first_name : string;
  last_name : string;
  email : string
}.
End UserSearchResult.

(* ================================================================== *)
(** ** Array primitives *)
(* ================================================================== *)

(** [Array.prototype.findIndex]: the index of the first element that
    satisfies [p], and [-1] when there is none. *)
Fixpoint findIndex {A : Type} (p : A → bool) (l : list A) : Z :=
  match l with
  | [] => -1
  | x :: l' =>
      if p x then 0
      else let i := findIndex p l' in
           if i =? -1 then -1 else i + 1
  end.

(** [t.id === taskId] and [l.id === listId]. *)
Definition isTask (taskId : string) (t : Task.t) : bool :=
  String.eqb (Task.id t) taskId.

Definition isList (listId : string) (l : BoardList.t) : bool :=
  String.eqb (BoardList.id l) listId.

(** All the tasks of a board, list after list. *)
Definition allTasks (ls : list BoardList.t) : list Task.t :=
  concat (map BoardList.tasks ls).

(* ================================================================== *)
(** ** The page's helpers *)
(* ================================================================== *)

Record DropTarget := { listId : string; index : Z }.

(** [findListContainingTask]: the first list with a task of that id. *)
Definition findListContainingTask
    (currentBoard : option Board.t) (taskId : string) : option BoardList.t :=
  match currentBoard with
  | None => None
  | Some b =>
      find (λ l, existsb (isTask taskId) (BoardList.tasks l)) (Board.lists b)
  end.

(** The [for (const l of currentBoard.lists)] loop of [resolveDropTarget]. *)
Fixpoint resolveDropTarget_tasks
    (ls : list BoardList.t) (overId : string) : option DropTarget :=
  match ls with
  | [] => None
  | l :: ls' =>
      let idx := findIndex (isTask overId) (BoardList.tasks l) in
      if negb (idx =? -1)
      then Some {| listId := BoardList.id l; index := idx |}
      else resolveDropTarget_tasks ls' overId
  end.

(** [resolveDropTarget]: a list id first, otherwise a task id. *)
Definition resolveDropTarget
    (currentBoard : option Board.t) (overId : string) : option DropTarget :=
  match currentBoard with
  | None => None
  | Some b =>
      match find (isList overId) (Board.lists b) with
      | Some list =>
          Some {| listId := BoardList.id list;
                  index := Z.of_nat (length (BoardList.tasks list)) |}
      | None => resolveDropTarget_tasks (Board.lists b) overId
      end
  end.

(* ================================================================== *)
(** ** The page: state, effects and the handler monad *)
(* ================================================================== *)

(** [dragOriginRef.current]. *)
Record Origin := { origin_listId : string; origin_position : Z }.

(** The body of the move request, [{ list_id, position }]. *)
Record MovePayload := { list_id : string; position : Z }.

(** What a handler sends out of the page: the persistence request of
    [useTaskStore], a toast, a re-fetch of the board. *)
Inductive Effect :=
| MoveTask (boardId taskId : string) (payload : MovePayload)
| AddToast (message kind : string)
| FetchBoard (boardId : string).

(** The state the handlers read and write: the board of the store, the
    [activeTask] state, the [dragOriginRef] ref, and the effects issued
    so far, oldest first.  A handler starts on the page of the latest
    render, whose [currentBoard] is the board of the store at that
    time. *)
Record Page := {
  currentBoard : option Board.t;
  activeTask : option Task.t;
  dragOriginRef : option Origin;
  effects : list Effect
}.

Definition set_currentBoard (b : option Board.t) (p : Page) : Page :=
  {| currentBoard := b; activeTask := activeTask p;
     dragOriginRef := dragOriginRef p; effects := effects p |}.

Definition set_activeTask (t : option Task.t) (p : Page) : Page :=
  {| currentBoard := currentBoard p; activeTask := t;
     dragOriginRef := dragOriginRef p; effects := effects p |}.

Definition set_dragOriginRef (o : option Origin) (p : Page) : Page :=
  {| currentBoard := currentBoard p; activeTask := activeTask p;
     dragOriginRef := o; effects := effects p |}.

Definition add_effect (e : Effect) (p : Page) : Page :=
  {| currentBoard := currentBoard p; activeTask := activeTask p;
     dragOriginRef := dragOriginRef p; effects := effects p ++ [e] |}.

(** A handler runs on the page and either goes on with a value or has
    executed [return] ([None]). *)
Definition Handler (A : Type) : Type := Page → Page * option A.

#[global] Instance Handler_ret : MRet Handler :=
  λ A x p, (p, Some x).

#[global] Instance Handler_bind : MBind Handler :=
  λ A B f c p,
    match c p with
    | (p', Some x) => f x p'
    | (p', None) => (p', None)
    end.

(** [return;] *)
Definition exit {A : Type} : Handler A := λ p, (p, None).

(** [if (!x) return;] *)
Definition orReturn {A : Type} (x : option A) : Handler A :=
  match x with
  | Some a => mret a
  | None => exit
  end.

(** [if (c) return;] *)
Definition returnIf (c : bool) : Handler unit :=
  if c then exit else mret ().

Definition when (c : bool) (h : Handler unit) : Handler unit :=
  if c then h else mret ().

Definition read {A : Type} (f : Page → A) : Handler A := λ p, (p, Some (f p)).

Definition write (f : Page → Page) : Handler unit := λ p, (f p, Some ()).

Definition setActiveTask (t : option Task.t) : Handler unit :=
  write (set_activeTask t).

Definition setDragOrigin (o : option Origin) : Handler unit :=
  write (set_dragOriginRef o).

Definition addToast (message kind : string) : Handler unit :=
  write (add_effect (AddToast message kind)).

Definition fetchBoard (boardId : string) : Handler unit :=
  write (add_effect (FetchBoard boardId)).

(** The page after a handler has run. *)
Definition run {A : Type} (h : Handler A) (p : Page) : Page := (h p).1.

(** The [active] and [over] ids of a drag event of [@dnd-kit/core]. *)
Record DragEvent := { active : string; over : option string }.

(* ================================================================== *)
(** ** The drag handlers of [BoardPage] *)
(* ================================================================== *)

Section BoardPage.

(** [params.boardId]. *)
Variable boardId : string.

(** [optimisticMoveTask] of [useBoardStore], as the transformation it
    applies to the board of the store:
    [optimisticMoveTask board taskId fromListId toListId index]. *)
Variable optimisticMoveTask :
  Board.t → string → string → string → Z → Board.t.

(** [moveTask] of [useTaskStore]: whether the awaited request is
    fulfilled ([true]) or rejected ([false]). *)
Variable moveTask : string → string → MovePayload → bool.

(** [findListContainingTask] and [resolveDropTarget] as
    [handleDragOver] calls them: on the board of the render the handler
    belongs to, which is the board of the store when the handler
    starts. *)
Definition findListContainingTaskM (taskId : string)
  : Handler (option BoardList.t) :=
  cb ← read currentBoard; mret (findListContainingTask cb taskId).

Definition resolveDropTargetM (overId : string)
  : Handler (option DropTarget) :=
  cb ← read currentBoard; mret (resolveDropTarget cb overId).

(** Modelled from the spec: [useBoardStore] is not among the sources.
    The call replaces the board of the store, which is the board the
    next render shows.  The handler that makes the call keeps the
    board of its own render: [currentBoard] is a constant of the render
    (page.tsx 33), and [findListContainingTask] and [resolveDropTarget]
    are closures over it (page.tsx 60-83). *)
Definition callOptimisticMoveTask
    (taskId fromListId toListId : string) (newPosition : Z) : Handler unit :=
  write (λ p,
    set_currentBoard
      ((λ b, optimisticMoveTask b taskId fromListId toListId newPosition)
         <$> currentBoard p) p).

(** [await moveTask(...)] inside [try]: the request goes out and the
    handler learns whether it was fulfilled. *)
Definition awaitMoveTask
    (taskId : string) (payload : MovePayload) : Handler bool :=
  write (add_effect (MoveTask boardId taskId payload));;
  mret (moveTask boardId taskId payload).

(** The [for (const list of currentBoard.lists)] loop of
    [handleDragStart], left by [break] at the first list that has the
    task. *)
Fixpoint handleDragStart_lists
    (taskId : string) (ls : list BoardList.t) : Handler unit :=
  match ls with
  | [] => mret ()
  | list :: ls' =>
      match find (isTask taskId) (BoardList.tasks list) with
      | Some task =>
          setActiveTask (Some task);;
          setDragOrigin
            (Some {| origin_listId := BoardList.id list;
                     origin_position :=
                       findIndex (isTask taskId) (BoardList.tasks list) |})
      | None => handleDragStart_lists taskId ls'
      end
  end.

Definition handleDragStart (event : DragEvent) : Handler unit :=
  let taskId := active event in
  b ← read currentBoard ≫= orReturn;
  handleDragStart_lists taskId (Board.lists b).

(** Fires while hovering: cross-list movement, optimistically. *)
Definition handleDragOver (event : DragEvent) : Handler unit :=
  overId ← orReturn (over event);
  _ ← read currentBoard ≫= orReturn;
  let activeId := active event in
  activeList ← findListContainingTaskM activeId;
  target ← resolveDropTargetM overId;
  activeList ← orReturn activeList;
  target ← orReturn target;
  returnIf (String.eqb (BoardList.id activeList) (listId target));;
  callOptimisticMoveTask
    activeId (BoardList.id activeList) (listId target) (index target).

(** Fires on drop: persist the final position.  [rendered] is the
    [currentBoard] of the render the handler belongs to: every read of
    the handler, the one under "Determine final destination" included,
    is a read of that board, also after the handler's own call of
    [optimisticMoveTask]. *)
Definition handleDragEnd (event : DragEvent) : Handler unit :=
  rendered ← read currentBoard;
  origin ← read dragOriginRef;
  setActiveTask None;;
  setDragOrigin None;;
  overId ← orReturn (over event);
  _ ← orReturn rendered;
  origin ← orReturn origin;
  let taskId := active event in
  currentList ← orReturn (findListContainingTask rendered taskId);
  target ← orReturn (resolveDropTarget rendered overId);
  when (String.eqb (BoardList.id currentList) (listId target))
    (let currentIdx :=
       findIndex (isTask taskId) (BoardList.tasks currentList) in
     when (currentIdx =? index target)
       (returnIf (String.eqb (origin_listId origin) (BoardList.id currentList)
                  && (origin_position origin =? currentIdx)));;
     when (negb (currentIdx =? index target))
       (callOptimisticMoveTask
          taskId (BoardList.id currentList) (listId target) (index target)));;
  finalList ← orReturn (findListContainingTask rendered taskId);
  let finalPosition :=
    findIndex (isTask taskId) (BoardList.tasks finalList) in
  returnIf (String.eqb (origin_listId origin) (BoardList.id finalList)
            && (origin_position origin =? finalPosition));;
  fulfilled ← awaitMoveTask taskId
    {| list_id := BoardList.id finalList; position := finalPosition |};
  when (negb fulfilled)
    (addToast "Failed to move task" "error";;
     fetchBoard boardId).

(** The last step of [handleDragEnd] read on its own, from "Determine
    final destination" on, with the board of the render as [rendered];
    [handleDragEnd_unfold] below relates the two. *)
Definition persistFinal (rendered : option Board.t)
    (taskId : string) (origin : Origin) (p : Page) : Page :=
  match findListContainingTask rendered taskId with
  | None => p
  | Some finalList =>
      let finalPosition :=
        findIndex (isTask taskId) (BoardList.tasks finalList) in
      let payload :=
        {| list_id := BoardList.id finalList; position := finalPosition |} in
      if String.eqb (origin_listId origin) (BoardList.id finalList)
         && (origin_position origin =? finalPosition)
      then p
      else
        let sent := add_effect (MoveTask boardId taskId payload) p in
        if moveTask boardId taskId payload then sent
        else add_effect (FetchBoard boardId)
               (add_effect (AddToast "Failed to move task" "error") sent)
  end.

(** The first lines of [handleDragEnd]: the overlay and the origin ref
    are cleared whatever follows. *)
Definition dragCleared (p : Page) : Page :=
  set_dragOriginRef None (set_activeTask None p).

(** One drag gesture: the task is picked up, hovers over a sequence of
    elements ([None]: over nothing), and is dropped.  The page is
    rendered again between two events, so each handler starts from the
    page the previous one left. *)
Definition hover (taskId : string) (p : Page) (overId : option string) : Page :=
  run (handleDragOver {| active := taskId; over := overId |}) p.

Definition dragged (taskId : string) (hovers : list (option string))
    (p : Page) : Page :=
  foldl (hover taskId)
    (run (handleDragStart {| active := taskId; over := None |}) p) hovers.

Definition gesture (taskId : string) (hovers : list (option string))
    (drop : option string) (p : Page) : Page :=
  run (handleDragEnd {| active := taskId; over := drop |})
    (dragged taskId hovers p).

End BoardPage.

(** Where a task is on a board, as the handlers compute it: the id of
    the first list that has it and its index there. *)
Definition taskPlace (cb : option Board.t) (taskId : string)
  : option (string * Z) :=
  match findListContainingTask cb taskId with
  | Some l =>
      Some (BoardList.id l, findIndex (isTask taskId) (BoardList.tasks l))
  | None => None
  end.

Definition originPlace (o : Origin) : string * Z :=
  (origin_listId o, origin_position o).

(** Being known to a board: the id of one of its lists, the id of a
    task of one of its lists. *)
Definition knownList (b : Board.t) (x : string) : bool :=
  existsb (isList x) (Board.lists b).

Definition knownTask (b : Board.t) (x : string) : bool :=
  existsb (λ l, existsb (isTask x) (BoardList.tasks l)) (Board.lists b).

(** The effects a handler issued: those of [p'] past those of [p]. *)
Definition issued (p p' : Page) : list Effect :=
  drop (length (effects p)) (effects p').

Definition isMoveTask (e : Effect) : bool :=
  match e with MoveTask _ _ _ => true | _ => false end.


(* ================================================================== *)
(** ** The board store ([useBoardStore]) *)
(* ================================================================== *)

Module BoardStore.

(** Modelled from the spec: the store's source is not available.
    "Removing the moved task from its source": the first task of that
    id leaves the sequence, the others keep their order. *)
Fixpoint removeTask (taskId : string) (ts : list Task.t) : list Task.t :=
  match ts with
  | [] => []
  | t :: ts' => if isTask taskId t then ts' else t :: removeTask taskId ts'
  end.

(** Modelled from the spec: the store's source is not available.
    "Inserting it at the target index": the task comes before the
    element that was at that index, and at the end when the index is
    past the end (an end-of-list drop appends). *)
Definition insertAt (i : Z) (t : Task.t) (ts : list Task.t) : list Task.t :=
  take (Z.to_nat i) ts ++ t :: drop (Z.to_nat i) ts.

(** Modelled from the spec: the store's source is not available.
    What a move does to one list of the board: the source list loses
    the task ([takeOut]), the destination list, possibly the same one,
    receives it at the target index ([putIn]). *)
Definition takeOut (taskId fromListId : string) (l : BoardList.t)
  : BoardList.t :=
  if isList fromListId l
  then BoardList.with_tasks l (removeTask taskId (BoardList.tasks l))
  else l.

(** Modelled from the spec: the store's source is not available.  See
    [takeOut]. *)
Definition putIn (task : Task.t) (toListId : string) (newPosition : Z)
    (l : BoardList.t) : BoardList.t :=
  if isList toListId l
  then BoardList.with_tasks l (insertAt newPosition task (BoardList.tasks l))
  else l.

(** Modelled from the spec: the store's source is not available.  See
    [takeOut]. *)
Definition moveInList (task : Task.t) (fromListId toListId : string)
    (newPosition : Z) (l : BoardList.t) : BoardList.t :=
  putIn task toListId newPosition (takeOut (Task.id task) fromListId l).

(** Modelled from the spec: [optimisticMoveTask] of [useBoardStore] is
    not among the sources.  Section 4.1: "compute the resulting
    sequence after removing the moved task from its source and
    inserting it at the target index within the (possibly different)
    destination list".  A move whose source list, destination list or
    task is unknown leaves the board as it is. *)
Definition optimisticMoveTask (b : Board.t)
    (taskId fromListId toListId : string) (newPosition : Z) : Board.t :=
  match find (isList fromListId) (Board.lists b),
        find (isList toListId) (Board.lists b) with
  | Some source, Some _ =>
      match find (isTask taskId) (BoardList.tasks source) with
      | Some task =>
          Board.with_lists b
            (map (moveInList task fromListId toListId newPosition)
                 (Board.lists b))
      | None => b
      end
  | _, _ => b
  end.

(** Modelled from the spec: the broadcast receiver ([useBoardSocket])
    is not among the sources.  Section 4.4: on a "task moved" event
    it applies "the same reordering transformation as 4.1 to local
    state, keyed by task_id, destination_list_id,
    destination_position"; the source list is the one that has the
    task now. *)
Definition applyTaskMoved (b : Board.t)
    (taskId toListId : string) (newPosition : Z) : Board.t :=
  match findListContainingTask (Some b) taskId with
  | Some source =>
      optimisticMoveTask b taskId (BoardList.id source) toListId newPosition
  | None => b
  end.

(** A requested relocation, and a sequence of them applied in order. *)
Record Move := {
  move_task : string;
  move_from : string;
  move_to : string;
  move_index : Z
}.

Definition applyMove (b : Board.t) (m : Move) : Board.t :=
  optimisticMoveTask b (move_task m) (move_from m) (move_to m) (move_index m).

Definition applyMoves (b : Board.t) (ms : list Move) : Board.t :=
  foldl applyMove b ms.

(** Modelled from the spec: [fetchBoard] of [useBoardStore] is not
    among the sources.  Section 6: the full board re-fetch returns
    "the complete current board state"; when the response arrives it
    replaces the board of the store. *)
Definition fetchBoard_fulfilled
    (server : string → Board.t) (boardId : string) (p : Page) : Page :=
  set_currentBoard (Some (server boardId)) p.

(** The page once the responses to the re-fetches it issued have
    arrived, in the order they were sent. *)
Definition recovered (server : string → Board.t) (p : Page) : Page :=
  foldl
    (λ q e,
       match e with
       | FetchBoard boardId => fetchBoard_fulfilled server boardId q
       | _ => q
       end)
    p (effects p).

End BoardStore.

(** The data-model invariants of a board: list ids are distinct, and so
    are the ids of all the tasks of all its lists. *)
Definition listIdsDistinct (b : Board.t) : Prop :=
  NoDup (map BoardList.id (Board.lists b)).

Definition taskIdsDistinct (b : Board.t) : Prop :=
  NoDup (map Task.id (allTasks (Board.lists b))).

Definition wellFormed (b : Board.t) : Prop :=
  listIdsDistinct b ∧ taskIdsDistinct b.

(* ================================================================== *)
(** ** The member search of [BoardMembersModal] *)
(* ================================================================== *)

Module BoardMembersModal.

(** The search state of the modal. *)
Record State := {
  query : string;
  results : list UserSearchResult.t;
  searching : bool
}.

Definition setResults (r : list UserSearchResult.t) (s : State) : State :=
  {| query := query s; results := r; searching := searching s |}.

Definition setSearching (b : bool) (s : State) : State :=
  {| query := query s; results := results s; searching := b |}.

(** [new Set([board.owner_id, ...board.members.map((m) => m.user_id)])] *)
Definition existingIds (board : Board.t) : gset string :=
  list_to_set
    (Board.owner_id board :: map BoardMember.user_id (Board.members board)).

(** The body of the debounced callback once [searchUsers] has settled:
    [Some users] when it was fulfilled, [None] when it was rejected. *)
Definition searchSettled (board : Board.t)
    (response : option (list UserSearchResult.t)) (s : State) : State :=
  setSearching false
    (match response with
     | Some users =>
         setResults
           (filter (λ u, UserSearchResult.id u ∉ existingIds board) users) s
     | None => setResults [] s
     end).

End BoardMembersModal.

(* ================================================================== *)
(** ** Sample boards *)
(* ================================================================== *)

Module Sample.

Definition T1 := Task.mk "T1" "first".
Definition T2 := Task.mk "T2" "second".
Definition T3 := Task.mk "T3" "third".

Definition board (a b : list Task.t) : Board.t :=
  Board.mk "board" "owner" []
    [BoardList.mk "A" a; BoardList.mk "B" b].

Definition page (a b : list Task.t) : Page :=
  {| currentBoard := Some (board a b); activeTask := None;
     dragOriginRef := None; effects := [] |}.

(** A server that accepts every move, and one that rejects them all. *)
Definition accept (_ _ : string) (_ : MovePayload) : bool := true.
Definition reject (_ _ : string) (_ : MovePayload) : bool := false.

End Sample.

(* ================================================================== *)
(** ** Timers ([setTimeout], [clearTimeout]) *)
(* ================================================================== *)

(** The timers of the event loop that are pending, each with its id,
    its delay in milliseconds and what it runs when it fires, and the
    id the next timer gets.  Ids are positive numbers, so the id of a
    timer is truthy. *)
Module Timers.
Section Timers.

Variable C : Type.

Record t := mk {
  pending : list (positive * (Z * C));
  next : positive
}.

Definition none : t := {| pending := []; next := 1%positive |}.

(** [setTimeout(run, delay)]: the id of the new timer and the timers
    with it. *)
Definition setTimeout (run : C) (delay : Z) (ts : t) : positive * t :=
  (next ts,
   {| pending := pending ts ++ [(next ts, (delay, run))];
      next := Pos.succ (next ts) |}).

(** [clearTimeout(id)]: nothing happens when no such timer is pending. *)
Definition clearTimeout (id : positive) (ts : t) : t :=
  {| pending := filter (λ e, e.1 ≠ id) (pending ts); next := next ts |}.

(** The timer [id] fires: what it runs, and the timers without it. *)
Definition fire (id : positive) (ts : t) : option (C * t) :=
  match find (λ e, Pos.eqb e.1 id) (pending ts) with
  | Some e => Some (e.2.2, clearTimeout id ts)
  | None => None
  end.

End Timers.

Arguments pending {C} _.
Arguments next {C} _.
Arguments none {C}.
Arguments setTimeout {C} _ _ _.
Arguments clearTimeout {C} _ _.
Arguments fire {C} _ _.
End Timers.

(* ================================================================== *)
(** ** The rest of [BoardMembersModal]: debounce, adding, the panel *)
(* ================================================================== *)

Module MembersModal.

(** What the modal sends out: the user search, the request of
    [addMember], a toast. *)
Inductive Request :=
| SearchUsers (q : string) (limit : Z)
| AddMember (boardId userId : string) (role : BoardRole)
| Toast (message kind : string).

(** How an awaited call ends: fulfilled, rejected with an [Error] and
    its message, or rejected with something else. *)
Inductive Settled :=
| Fulfilled
| RejectedError (message : string)
| RejectedOther.

(** The state of the modal: the search state, [adding],
    [selectedRole], [debounceRef], the pending debounce timers (each
    runs the search for the query and the board of the render that
    started it), and the requests sent so far, oldest first. *)
Record t := mk {
  search : BoardMembersModal.State;
  adding : option string;
  selectedRole : BoardRole;
  debounceRef : option positive;
  timers : Timers.t (string * Board.t);
  sent : list Request
}.

Definition with_search (s : BoardMembersModal.State) (m : t) : t :=
  {| search := s; adding := adding m; selectedRole := selectedRole m;
     debounceRef := debounceRef m; timers := timers m; sent := sent m |}.

Definition with_adding (a : option string) (m : t) : t :=
  {| search := search m; adding := a; selectedRole := selectedRole m;
     debounceRef := debounceRef m; timers := timers m; sent := sent m |}.

Definition with_debounceRef (r : option positive) (m : t) : t :=
  {| search := search m; adding := adding m; selectedRole := selectedRole m;
     debounceRef := r; timers := timers m; sent := sent m |}.

Definition with_timers (ts : Timers.t (string * Board.t)) (m : t) : t :=
  {| search := search m; adding := adding m; selectedRole := selectedRole m;
     debounceRef := debounceRef m; timers := ts; sent := sent m |}.

Definition send (r : Request) (m : t) : t :=
  {| search := search m; adding := adding m; selectedRole := selectedRole m;
     debounceRef := debounceRef m; timers := timers m; sent := sent m ++ [r] |}.

Definition setQuery (q : string) (s : BoardMembersModal.State)
  : BoardMembersModal.State :=
  {| BoardMembersModal.query := q;
     BoardMembersModal.results := BoardMembersModal.results s;
     BoardMembersModal.searching := BoardMembersModal.searching s |}.

(** The modal as [useState] and [useRef] create it, for the role
    selected first. *)
Definition initial : t :=
  {| search := {| BoardMembersModal.query := "";
                  BoardMembersModal.results := [];
                  BoardMembersModal.searching := false |};
     adding := None; selectedRole := editor; debounceRef := None;
     timers := Timers.none; sent := [] |}.

(** A [BoardRole] is the string that names it. *)
Definition roleName (r : BoardRole) : string :=
  match r with
  | admin => "admin"
  | editor => "editor"
  | viewer => "viewer"
  end.

Section Debounce.

(** [String.prototype.trim]. *)
Variable trim : string → string.

(** [if (debounceRef.current) clearTimeout(debounceRef.current);], the
    first statement of the search effect and the whole of its cleanup. *)
Definition clearDebounce (m : t) : t :=
  match debounceRef m with
  | Some id => with_timers (Timers.clearTimeout id (timers m)) m
  | None => m
  end.

(** The body of the "Debounced search" effect, for the board and the
    query of the render it runs in. *)
Definition searchEffect (board : Board.t) (m : t) : t :=
  let m := clearDebounce m in
  let query := BoardMembersModal.query (search m) in
  if (String.length (trim query) <? 2)%nat
  then
    with_search
      (BoardMembersModal.setSearching false
         (BoardMembersModal.setResults [] (search m))) m
  else
    let m := with_search (BoardMembersModal.setSearching true (search m)) m in
    let (id, ts) := Timers.setTimeout (query, board) 300 (timers m) in
    with_debounceRef (Some id) (with_timers ts m).

(** The first render of the modal. *)
Definition mounted (board : Board.t) : t := searchEffect board initial.

(** A dependency of the effect changes, the query ([onChange] of the
    input) or the board's owner or members: the cleanup of the former
    effect runs, then the effect of the new render. *)
Definition changed (board : Board.t) (q : string) (m : t) : t :=
  searchEffect board (clearDebounce (with_search (setQuery q (search m)) m)).

(** A debounce timer fires: its callback calls
    [searchUsers(query.trim(), 10)]. *)
Definition fired (id : positive) (m : t) : t :=
  match Timers.fire id (timers m) with
  | Some ((query, _), ts) =>
      send (SearchUsers (trim query) 10) (with_timers ts m)
  | None => m
  end.

(** [searchUsers] settles, for a callback that had captured [board]. *)
Definition responded (board : Board.t)
    (response : option (list UserSearchResult.t)) (m : t) : t :=
  with_search (BoardMembersModal.searchSettled board response (search m)) m.

(** What happens to the search of a mounted modal. *)
Inductive Event :=
| Changed (board : Board.t) (q : string)
| Fired (id : positive)
| Responded (board : Board.t) (response : option (list UserSearchResult.t)).

Definition step (m : t) (e : Event) : t :=
  match e with
  | Changed board q => changed board q m
  | Fired id => fired id m
  | Responded board response => responded board response m
  end.

(** The debounce at rest: no timer is pending, or one is, the one
    [debounceRef] names, due in 300 ms, for the query on screen, which
    has two characters or more once trimmed. *)
Definition debounced (m : t) : Prop :=
  Timers.pending (timers m) = [] ∨
  ∃ id board,
    debounceRef m = Some id ∧
    Timers.pending (timers m) =
      [(id, (300, (BoardMembersModal.query (search m), board)))] ∧
    (2 ≤ String.length (trim (BoardMembersModal.query (search m))))%nat.

(** What the search area of the modal shows. *)
Inductive Panel :=
| Hidden
| Spinner
| NoUsersFound
| UserList (users : list UserSearchResult.t).

(** The "Search Results" block of the render. *)
Definition panel (s : BoardMembersModal.State) : Panel :=
  if (2 <=? String.length (trim (BoardMembersModal.query s)))%nat
  then
    if BoardMembersModal.searching s then Spinner
    else if (length (BoardMembersModal.results s) =? 0)%nat then NoUsersFound
    else UserList (BoardMembersModal.results s)
  else Hidden.

End Debounce.

(** [handleAdd] up to its [await]: [adding] is set and the request of
    [addMember] goes out with the role selected in this render. *)
Definition handleAdd_called (board : Board.t) (user : UserSearchResult.t)
    (m : t) : t :=
  send (AddMember (Board.id board) (UserSearchResult.id user) (selectedRole m))
    (with_adding (Some (UserSearchResult.id user)) m).

(** [handleAdd] from the moment [addMember] settles, on the state the
    modal has by then; [role] is the role the call was made with. *)
Definition handleAdd_settled (user : UserSearchResult.t) (role : BoardRole)
    (outcome : Settled) (m : t) : t :=
  with_adding None
    (match outcome with
     | Fulfilled =>
         with_search
           (BoardMembersModal.setResults
              (filter (λ u, UserSearchResult.id u ≠ UserSearchResult.id user)
                 (BoardMembersModal.results (search m)))
              (search m))
           (send
              (Toast
                 (String.append (UserSearchResult.first_name user)
                    (String.append " "
                       (String.append (UserSearchResult.last_name user)
                          (String.append " added as " (roleName role)))))
                 "success") m)
     | RejectedError message => send (Toast message "error") m
     | RejectedOther => send (Toast "Failed to add member" "error") m
     end).

End MembersModal.

(* ================================================================== *)
(** ** The toast ([Toast]) *)
(* ================================================================== *)

Module Toast.

(** What the two timers of the toast run: the arrow function that
    starts the second timer, and [onClose]. *)
Inductive Callback := CloseLater | Close.

(** The toast: the pending timers, the [timer] the cleanup of the
    effect holds, and how many times [onClose] was called. *)
Record t := mk {
  timers : Timers.t Callback;
  timer : option positive;
  closed : nat
}.

(** [duration = 3000]. *)
Definition defaultDuration : Z := 3000.

(** The body of the effect. *)
Definition effect (duration : Z) (s : t) : t :=
  let (id, ts) := Timers.setTimeout CloseLater duration (timers s) in
  {| timers := ts; timer := Some id; closed := closed s |}.

(** [return () => clearTimeout(timer);] *)
Definition cleanup (s : t) : t :=
  match timer s with
  | Some id =>
      {| timers := Timers.clearTimeout id (timers s); timer := timer s;
         closed := closed s |}
  | None => s
  end.

Definition mounted (duration : option Z) : t :=
  effect (default defaultDuration duration)
    {| timers := Timers.none; timer := None; closed := 0 |}.

(** [duration] or [onClose] changes: the cleanup, then the effect. *)
Definition rerendered (duration : Z) (s : t) : t := effect duration (cleanup s).

Definition unmounted (s : t) : t := cleanup s.

(** A timer fires. *)
Definition fired (id : positive) (s : t) : t :=
  match Timers.fire id (timers s) with
  | Some (CloseLater, ts) =>
      {| timers := (Timers.setTimeout Close 300 ts).2; timer := timer s;
         closed := closed s |}
  | Some (Close, ts) =>
      {| timers := ts; timer := timer s; closed := S (closed s) |}
  | None => s
  end.

(** The button is clicked: [onClose()]. *)
Definition clicked (s : t) : t :=
  {| timers := timers s; timer := timer s; closed := S (closed s) |}.

(** The timers of a toast in order: ids are distinct and below the next
    id, as is the id the cleanup holds; a pending countdown is the one
    the cleanup holds; a pending close is due in 300 ms and is not
    the timer the cleanup holds. *)
Definition wf (s : t) : Prop :=
  NoDup (Timers.pending (timers s)).*1 ∧
  (∀ e, e ∈ Timers.pending (timers s) → (e.1 < Timers.next (timers s))%positive) ∧
  (∀ id, timer s = Some id → (id < Timers.next (timers s))%positive) ∧
  (∀ id d, (id, (d, CloseLater)) ∈ Timers.pending (timers s) →
           timer s = Some id) ∧
  (∀ id d, (id, (d, Close)) ∈ Timers.pending (timers s) →
           d = 300 ∧ timer s ≠ Some id).

(** What happens to a toast that is on screen, or after it has left
    it. *)
Inductive Event :=
| Rerendered (duration : Z)
| Unmounted
| Clicked
| Fired (id : positive).

Definition step (s : t) (e : Event) : t :=
  match e with
  | Rerendered duration => rerendered duration s
  | Unmounted => unmounted s
  | Clicked => clicked s
  | Fired id => fired id s
  end.

End Toast.

(* ================================================================== *)
(** ** Proof tactics *)
(* ================================================================== *)

(** Unfolds a handler down to the page transformation it denotes. *)
Ltac handler_unfold :=
  unfold run, handleDragEnd, handleDragOver, handleDragStart,
    findListContainingTaskM, resolveDropTargetM, callOptimisticMoveTask,
    awaitMoveTask, setActiveTask, setDragOrigin, addToast, fetchBoard,
    when, returnIf, orReturn, exit, read, write, mbind, mret,
    Handler_bind, Handler_ret.

(** Projects the fields of a page that is given as a record. *)
Ltac pg :=
  cbn [currentBoard activeTask dragOriginRef effects fst snd negb
       fmap option_fmap option_map].

(* ================================================================== *)
(** ** Facts about the array primitives and the helpers *)
(* ================================================================== *)

Lemma findIndex_range {A : Type} (p : A → bool) (l : list A) :
  findIndex p l = -1 ∨ 0 ≤ findIndex p l < Z.of_nat (length l).
Proof.
  induction l as [|x l IH]; simpl; [by left|].
  destruct (p x); [right; lia|].
  destruct (Z.eqb_spec (findIndex p l) (-1)); [by left|right; lia].
Qed.

Lemma findIndex_none {A : Type} (p : A → bool) (l : list A) :
  findIndex p l = -1 ↔ existsb p l = false.
Proof.
  induction l as [|x l IH]; simpl; [done|].
  destruct (p x); simpl; [split; [lia|done]|].
  pose proof (findIndex_range p l).
  destruct (Z.eqb_spec (findIndex p l) (-1)); [tauto|].
  rewrite <- IH. split; [lia|done].
Qed.

(** The index [findIndex] answers is that of an element that satisfies
    the predicate, and no earlier element does. *)
Lemma findIndex_lookup {A : Type} (p : A → bool) (l : list A) (i : nat) :
  findIndex p l = Z.of_nat i ↔
  (∃ x, l !! i = Some x ∧ p x = true) ∧
  (∀ j y, (j < i)%nat → l !! j = Some y → p y = false).
Proof.
  revert i. induction l as [|x l IH]; intros i; simpl.
  - split; [lia|]. by intros [(y & Hy & _) _].
  - destruct (p x) eqn:Hx.
    + split.
      * intros Hi. assert (i = 0%nat) as -> by lia. split; [by exists x|].
        intros j y Hj. lia.
      * intros [_ Hmin]. destruct i as [|i]; [done|].
        specialize (Hmin 0%nat x). simpl in Hmin.
        rewrite Hx in Hmin. discriminate Hmin; [lia|done].
    + pose proof (findIndex_range p l) as Hr.
      destruct (Z.eqb_spec (findIndex p l) (-1)) as [Hn|Hn].
      * split; [lia|]. intros [(y & Hy & Hpy) _]. exfalso.
        destruct i as [|i]; simpl in Hy; [congruence|].
        apply findIndex_none in Hn.
        assert (existsb p l = true) as Hex; [|congruence].
        apply existsb_exists. exists y. split; [|done].
        apply list_elem_of_In. by eapply list_elem_of_lookup_2.
      * destruct i as [|i].
        { split; [lia|]. intros [(y & Hy & Hpy) _]. simpl in Hy. congruence. }
        assert (findIndex p l + 1 = Z.of_nat (S i) ↔ findIndex p l = Z.of_nat i)
          as -> by lia.
        rewrite IH. simpl. split.
        -- intros [Hex Hmin]. split; [done|].
           intros [|j] y Hj Hy; simpl in Hy; [congruence|].
           apply (Hmin j); [lia|done].
        -- intros [Hex Hmin]. split; [done|].
           intros j y Hj Hy. apply (Hmin (S j)); [lia|done].
Qed.

Lemma find_isList_id (listId : string) (ls : list BoardList.t) (l : BoardList.t) :
  find (isList listId) ls = Some l → BoardList.id l = listId ∧ l ∈ ls.
Proof.
  intros H. apply find_some in H as [Hin Hid].
  split; [by apply String.eqb_eq|by apply list_elem_of_In].
Qed.

Lemma find_isList_none (listId : string) (ls : list BoardList.t) :
  find (isList listId) ls = None ↔ ∀ l, l ∈ ls → BoardList.id l ≠ listId.
Proof.
  split.
  - intros H l Hl Hid. apply list_elem_of_In in Hl.
    pose proof (find_none _ _ H l Hl) as Hf. unfold isList in Hf.
    apply String.eqb_neq in Hf. done.
  - intros H. destruct (find (isList listId) ls) as [l|] eqn:Hf; [|done].
    apply find_isList_id in Hf as [Hid Hl]. by destruct (H l Hl).
Qed.

Lemma existsb_isTask (taskId : string) (ts : list Task.t) :
  existsb (isTask taskId) ts = true ↔ ∃ t, t ∈ ts ∧ Task.id t = taskId.
Proof.
  rewrite existsb_exists. unfold isTask. split.
  - intros (t & Hin & Hid). exists t. split; [by apply list_elem_of_In|].
    by apply String.eqb_eq.
  - intros (t & Hin & Hid). exists t. split; [by apply list_elem_of_In|].
    by apply String.eqb_eq.
Qed.

(** The loop of [resolveDropTarget] answers for the first list that has
    a task of that id. *)
Lemma resolveDropTarget_tasks_find (ls : list BoardList.t) (overId : string) :
  resolveDropTarget_tasks ls overId =
  match find (λ l, existsb (isTask overId) (BoardList.tasks l)) ls with
  | Some l =>
      Some {| listId := BoardList.id l;
              index := findIndex (isTask overId) (BoardList.tasks l) |}
  | None => None
  end.
Proof.
  induction ls as [|l ls IH]; simpl; [done|].
  destruct (existsb (isTask overId) (BoardList.tasks l)) eqn:Hex.
  - destruct (Z.eqb_spec (findIndex (isTask overId) (BoardList.tasks l)) (-1))
      as [Hn|Hn]; simpl; [|done].
    apply findIndex_none in Hn. congruence.
  - apply findIndex_none in Hex. rewrite Hex. simpl. apply IH.
Qed.

Lemma knownList_spec (b : Board.t) (x : string) :
  knownList b x = true ↔ ∃ l, l ∈ Board.lists b ∧ BoardList.id l = x.
Proof.
  unfold knownList. rewrite existsb_exists. unfold isList. split.
  - intros (l & Hl & Hid). exists l. split; [by apply list_elem_of_In|].
    by apply String.eqb_eq.
  - intros (l & Hl & Hid). exists l. split; [by apply list_elem_of_In|].
    by apply String.eqb_eq.
Qed.

Lemma knownTask_spec (b : Board.t) (x : string) :
  knownTask b x = true ↔
  ∃ l t, l ∈ Board.lists b ∧ t ∈ BoardList.tasks l ∧ Task.id t = x.
Proof.
  unfold knownTask. rewrite existsb_exists. split.
  - intros (l & Hl & Hex). apply existsb_isTask in Hex as (t & Ht & Hid).
    exists l, t. by rewrite list_elem_of_In.
  - intros (l & t & Hl & Ht & Hid). exists l.
    split; [by apply list_elem_of_In|]. apply existsb_isTask. by exists t.
Qed.

Lemma findListContainingTask_none (b : Board.t) (x : string) :
  findListContainingTask (Some b) x = None ↔ knownTask b x = false.
Proof.
  simpl. unfold knownTask. split.
  - intros H. apply not_true_is_false. intros Hex.
    apply existsb_exists in Hex as (l & Hl & Hex).
    pose proof (find_none _ _ H l Hl) as Hf. simpl in Hf. congruence.
  - intros H.
    destruct (find _ (Board.lists b)) as [l|] eqn:Hf; [|done].
    apply find_some in Hf as [Hl Hex].
    assert (existsb (λ l, existsb (isTask x) (BoardList.tasks l)) (Board.lists b)
            = true); [|congruence].
    apply existsb_exists. by exists l.
Qed.

(** C3. [resolveDropTarget] on a loaded board: for the id of a known
    list it answers that list's id with the number of its tasks as the
    insertion index; otherwise, for the id of a known task, the id of
    the list that has the task with the task's index in it; and [null]
    when the id is that of neither a list nor a task. *)
Theorem resolveDropTarget_cases (b : Board.t) (overId : string) :
  (knownList b overId = true →
   ∃ l, l ∈ Board.lists b ∧ BoardList.id l = overId ∧
        find (isList overId) (Board.lists b) = Some l ∧
        resolveDropTarget (Some b) overId =
        Some {| listId := BoardList.id l;
                index := Z.of_nat (length (BoardList.tasks l)) |}) ∧
  (knownList b overId = false → knownTask b overId = true →
   ∃ l i t, l ∈ Board.lists b ∧
        findListContainingTask (Some b) overId = Some l ∧
        BoardList.tasks l !! i = Some t ∧ Task.id t = overId ∧
        findIndex (isTask overId) (BoardList.tasks l) = Z.of_nat i ∧
        resolveDropTarget (Some b) overId =
        Some {| listId := BoardList.id l; index := Z.of_nat i |}) ∧
  (knownList b overId = false → knownTask b overId = false →
   resolveDropTarget (Some b) overId = None).
Proof.
  assert (knownList b overId = false →
          find (isList overId) (Board.lists b) = None) as Hnone.
  { intros Hnl. apply find_isList_none. intros l Hl Hid.
    assert (knownList b overId = true); [|congruence].
    apply knownList_spec. by exists l. }
  split; [|split].
  - intros (l0 & Hl0 & Hid0)%knownList_spec. simpl.
    destruct (find (isList overId) (Board.lists b)) as [l|] eqn:Hf.
    + apply find_isList_id in Hf as [Hid Hl]. by exists l.
    + destruct (proj1 (find_isList_none _ _) Hf l0 Hl0 Hid0).
  - intros Hnl Hkt. simpl. rewrite (Hnone Hnl). clear Hnone.
    rewrite resolveDropTarget_tasks_find.
    destruct (find _ (Board.lists b)) as [l|] eqn:Hf.
    + pose proof Hf as Hf'. apply find_some in Hf' as [Hl Hex]. simpl in Hex.
      pose proof (findIndex_range (isTask overId) (BoardList.tasks l)) as [Hn|Hr].
      { apply findIndex_none in Hn. congruence. }
      set (i := Z.to_nat (findIndex (isTask overId) (BoardList.tasks l))).
      assert (findIndex (isTask overId) (BoardList.tasks l) = Z.of_nat i) as Hi
        by lia.
      pose proof (proj1 (findIndex_lookup _ _ _) Hi) as [(t & Ht & Hp) _].
      exists l, i, t. rewrite Hi. repeat split; try done.
      * by apply list_elem_of_In.
      * by apply String.eqb_eq.
    + assert (knownTask b overId = false); [|congruence].
      apply findListContainingTask_none. exact Hf.
  - intros Hnl Hnt. simpl. rewrite (Hnone Hnl).
    rewrite resolveDropTarget_tasks_find.
    apply findListContainingTask_none in Hnt. simpl in Hnt. by rewrite Hnt.
Qed.

(** The three cases of [resolveDropTarget_cases] on the sample board
    [A = [T1; T2; T3]], [B = []]: the list id ["B"], the task id ["T2"]
    and an id the board does not know. *)
Lemma resolveDropTarget_cases_witness :
  resolveDropTarget (Some (Sample.board [Sample.T1; Sample.T2; Sample.T3] [])) "B"
    = Some {| listId := "B"; index := 0 |} ∧
  resolveDropTarget (Some (Sample.board [Sample.T1; Sample.T2; Sample.T3] [])) "T2"
    = Some {| listId := "A"; index := 1 |} ∧
  resolveDropTarget (Some (Sample.board [Sample.T1; Sample.T2; Sample.T3] [])) "T9"
    = None.
Proof.
  set (b := Sample.board [Sample.T1; Sample.T2; Sample.T3] []).
  split; [|split].
  - destruct (proj1 (resolveDropTarget_cases b "B")) as (l & _ & _ & Hf & ->);
      [reflexivity|].
    vm_compute in Hf. injection Hf as <-. reflexivity.
  - destruct (proj1 (proj2 (resolveDropTarget_cases b "T2")))
      as (l & i & t & _ & Hf & _ & _ & Hi & ->); [reflexivity|reflexivity|].
    vm_compute in Hf. injection Hf as <-.
    change (findIndex _ _) with 1 in Hi.
    assert (i = 1%nat) as -> by lia. reflexivity.
  - apply (proj2 (proj2 (resolveDropTarget_cases b "T9"))); reflexivity.
Defined.

(* ================================================================== *)
(** ** Facts about the drag handlers *)
(* ================================================================== *)

Lemma issued_app (p p' : Page) (es : list Effect) :
  effects p' = effects p ++ es → issued p p' = es.
Proof. unfold issued. intros ->. by rewrite drop_app_length. Qed.

Section BoardPageFacts.

Variable boardId : string.
Variable optimisticMoveTask : Board.t → string → string → string → Z → Board.t.
Variable moveTask : string → string → MovePayload → bool.

#[local] Abbreviation onDragOver := (handleDragOver optimisticMoveTask).
#[local] Abbreviation onDragEnd :=
  (handleDragEnd boardId optimisticMoveTask moveTask).
#[local] Abbreviation persist := (persistFinal boardId moveTask).

(** [handleDragOver] in one piece. *)
Lemma handleDragOver_unfold (event : DragEvent) (p : Page) :
  run (onDragOver event) p =
  match over event, currentBoard p with
  | Some overId, Some b =>
      match findListContainingTask (Some b) (active event),
            resolveDropTarget (Some b) overId with
      | Some activeList, Some target =>
          if String.eqb (BoardList.id activeList) (listId target) then p
          else set_currentBoard
                 (Some (optimisticMoveTask b (active event)
                          (BoardList.id activeList) (listId target)
                          (index target))) p
      | _, _ => p
      end
  | _, _ => p
  end.
Proof.
  handler_unfold. destruct p as [cb at_ og ef]; simpl.
  destruct (over event) as [overId|]; [|done].
  destruct cb as [b|]; [|done]. simpl.
  destruct (find _ (Board.lists b)) as [activeList|]; [|done].
  destruct (find (isList overId) (Board.lists b)) as [l|].
  - by destruct (String.eqb _ _).
  - destruct (resolveDropTarget_tasks _ _) as [target|]; [|done].
    by destruct (String.eqb _ _).
Qed.

(** [handleDragEnd] in one piece: the early returns, the reorder within
    the list, and the last step [persistFinal], which reads the board
    the handler started from. *)
Lemma handleDragEnd_unfold (event : DragEvent) (p : Page) :
  run (onDragEnd event) p =
  match over event, currentBoard p, dragOriginRef p with
  | Some overId, Some b, Some origin =>
      match findListContainingTask (Some b) (active event),
            resolveDropTarget (Some b) overId with
      | Some currentList, Some target =>
          let currentIdx :=
            findIndex (isTask (active event)) (BoardList.tasks currentList) in
          if String.eqb (BoardList.id currentList) (listId target) then
            if currentIdx =? index target then
              if String.eqb (origin_listId origin) (BoardList.id currentList)
                 && (origin_position origin =? currentIdx)
              then dragCleared p
              else persist (Some b) (active event) origin (dragCleared p)
            else
              persist (Some b) (active event) origin
                (set_currentBoard
                   (Some (optimisticMoveTask b (active event)
                            (BoardList.id currentList) (listId target)
                            (index target)))
                   (dragCleared p))
          else persist (Some b) (active event) origin (dragCleared p)
      | _, _ => dragCleared p
      end
  | _, _, _ => dragCleared p
  end.
Proof.
  handler_unfold.
  unfold persistFinal, dragCleared, set_dragOriginRef, set_activeTask,
    set_currentBoard, add_effect.
  destruct p as [cb at_ og ef]; pg.
  destruct (over event) as [overId|]; pg; [|done].
  destruct cb as [b|]; pg; [|done].
  destruct og as [origin|]; pg; [|done].
  destruct (findListContainingTask (Some b) (active event))
    as [currentList|] eqn:Hcur; pg; [|done].
  destruct (resolveDropTarget (Some b) overId) as [target|]; pg; [|done].
  destruct (String.eqb (BoardList.id currentList) (listId target)); pg.
  - destruct (_ =? index target); pg.
    + destruct (_ && _) eqn:Hsame; pg; [done|].
      by destruct (moveTask _ _ _).
    + destruct (_ && _); pg; [done|]. by destruct (moveTask _ _ _).
  - destruct (_ && _); pg; [done|]. by destruct (moveTask _ _ _).
Qed.

(** What [persistFinal] issues: nothing when the place the task has on
    the board of the render is the origin or the task is not on that
    board, and otherwise one request, followed by the toast and the
    re-fetch when the request is rejected.  It leaves the board of the
    store, the overlay and the origin ref as they are. *)
Lemma persistFinal_issued
    (rendered : option Board.t) (taskId : string) (origin : Origin)
    (p : Page) :
  currentBoard (persist rendered taskId origin p) = currentBoard p ∧
  activeTask (persist rendered taskId origin p) = activeTask p ∧
  dragOriginRef (persist rendered taskId origin p) = dragOriginRef p ∧
  effects (persist rendered taskId origin p) = effects p ++
    match taskPlace rendered taskId with
    | None => []
    | Some (finalListId, finalPosition) =>
        if String.eqb (origin_listId origin) finalListId
           && (origin_position origin =? finalPosition)
        then []
        else
          let payload :=
            {| list_id := finalListId; position := finalPosition |} in
          MoveTask boardId taskId payload ::
          (if moveTask boardId taskId payload then []
           else [AddToast "Failed to move task" "error"; FetchBoard boardId])
    end.
Proof.
  unfold persistFinal, taskPlace.
  destruct (findListContainingTask rendered taskId) as [finalList|];
    [|by rewrite app_nil_r].
  destruct (_ && _); [by rewrite app_nil_r|].
  destruct (moveTask _ _ _); simpl; [done|].
  repeat split. by rewrite <- !app_assoc.
Qed.

(** What a drop issues.  When the task, the origin and the drop target
    are all there, the effects are decided by the place the task has on
    the board the handler started from, the board as the drag-over
    moves left it; in every other case the handler only clears the
    overlay and the origin. *)
Lemma handleDragEnd_outcome (event : DragEvent) (p : Page) :
  match over event, currentBoard p, dragOriginRef p with
  | Some overId, Some b, Some origin =>
      match findListContainingTask (Some b) (active event),
            resolveDropTarget (Some b) overId with
      | Some _, Some _ =>
          activeTask (run (onDragEnd event) p) = None ∧
          dragOriginRef (run (onDragEnd event) p) = None ∧
          effects (run (onDragEnd event) p) = effects p ++
            match taskPlace (Some b) (active event) with
            | None => []
            | Some (finalListId, finalPosition) =>
                if String.eqb (origin_listId origin) finalListId
                   && (origin_position origin =? finalPosition)
                then []
                else
                  let payload :=
                    {| list_id := finalListId; position := finalPosition |} in
                  MoveTask boardId (active event) payload ::
                  (if moveTask boardId (active event) payload then []
                   else [AddToast "Failed to move task" "error";
                         FetchBoard boardId])
            end
      | _, _ => run (onDragEnd event) p = dragCleared p
      end
  | _, _, _ => run (onDragEnd event) p = dragCleared p
  end.
Proof.
  rewrite handleDragEnd_unfold.
  destruct (over event) as [overId|]; [|done].
  destruct (currentBoard p) as [b|] eqn:Hb; [|done].
  destruct (dragOriginRef p) as [origin|]; [|done].
  destruct (findListContainingTask (Some b) (active event))
    as [currentList|] eqn:Hcur; [|done].
  destruct (resolveDropTarget (Some b) overId) as [target|]; [|done].
  cbv zeta.
  assert (∀ q, activeTask q = None → dragOriginRef q = None →
               effects q = effects p →
            activeTask (persist (Some b) (active event) origin q) = None ∧
            dragOriginRef (persist (Some b) (active event) origin q) = None ∧
            effects (persist (Some b) (active event) origin q) = effects p ++
              match taskPlace (Some b) (active event) with
              | None => []
              | Some (finalListId, finalPosition) =>
                  if String.eqb (origin_listId origin) finalListId
                     && (origin_position origin =? finalPosition)
                  then []
                  else
                    MoveTask boardId (active event)
                      {| list_id := finalListId; position := finalPosition |} ::
                    (if moveTask boardId (active event)
                          {| list_id := finalListId;
                             position := finalPosition |}
                     then []
                     else [AddToast "Failed to move task" "error";
                           FetchBoard boardId])
              end) as Hpersist.
  { intros q Ha Ho He.
    destruct (persistFinal_issued (Some b) (active event) origin q)
      as (_ & -> & -> & ->).
    by rewrite He. }
  destruct (String.eqb (BoardList.id currentList) (listId target)).
  - destruct (_ =? index target); [|by apply Hpersist].
    destruct (_ && _) eqn:Hsame; [|by apply Hpersist].
    unfold dragCleared; simpl. unfold taskPlace. rewrite Hcur.
    rewrite Hsame. by rewrite app_nil_r.
  - by apply Hpersist.
Qed.

Lemma place_eqb (origin : Origin) (place : string * Z) :
  String.eqb (origin_listId origin) place.1
  && (origin_position origin =? place.2) = true ↔ place = originPlace origin.
Proof.
  destruct place as [l i]. unfold originPlace. simpl.
  rewrite andb_true_iff, String.eqb_eq, Z.eqb_eq.
  split; [by intros [-> ->]|by intros [= -> ->]].
Qed.

(** C5. [handleDragOver] issues no request and touches nothing but the
    board of the store; when the dragged task's list and the resolved
    target list differ the board becomes the optimistically moved one,
    and when they are the same list, or the hover is over nothing, or
    the task or the target cannot be resolved, the page is left as it
    is. *)
Theorem handleDragOver_local (event : DragEvent) (p : Page) :
  effects (run (onDragOver event) p) = effects p ∧
  activeTask (run (onDragOver event) p) = activeTask p ∧
  dragOriginRef (run (onDragOver event) p) = dragOriginRef p ∧
  (∀ overId b activeList target,
     over event = Some overId → currentBoard p = Some b →
     findListContainingTask (Some b) (active event) = Some activeList →
     resolveDropTarget (Some b) overId = Some target →
     BoardList.id activeList ≠ listId target →
     currentBoard (run (onDragOver event) p) =
     Some (optimisticMoveTask b (active event)
             (BoardList.id activeList) (listId target) (index target))) ∧
  (over event = None ∨
   findListContainingTask (currentBoard p) (active event) = None ∨
   (∃ overId, over event = Some overId ∧
      resolveDropTarget (currentBoard p) overId = None) ∨
   (∃ overId activeList target, over event = Some overId ∧
      findListContainingTask (currentBoard p) (active event) = Some activeList ∧
      resolveDropTarget (currentBoard p) overId = Some target ∧
      BoardList.id activeList = listId target) →
   run (onDragOver event) p = p).
Proof.
  rewrite handleDragOver_unfold.
  split; [|split; [|split; [|split]]].
  - repeat case_match; done.
  - repeat case_match; done.
  - repeat case_match; done.
  - intros overId b activeList target -> -> -> -> Hne.
    by destruct (String.eqb_spec (BoardList.id activeList) (listId target)).
  - intros [->|[Hact|[(overId & -> & Htgt)|
                      (overId & activeList & target & -> & Hact & Htgt & Heq)]]].
    + done.
    + destruct (over event), (currentBoard p); try done. by rewrite Hact.
    + destruct (currentBoard p); [|done]. rewrite Htgt.
      by destruct (findListContainingTask _ _).
    + destruct (currentBoard p); [|done]. rewrite Hact, Htgt.
      apply String.eqb_eq in Heq. by rewrite Heq.
Qed.


(** C2. When the persistence request of [handleDragEnd] is rejected, the
    handler has issued exactly that one request, then the error toast
    and the re-fetch of the board, and nothing else; once the re-fetch
    is answered the board of the store is the board the server sent. *)
Theorem handleDragEnd_rejected_refetches
    (server : string → Board.t) (event : DragEvent) (p : Page)
    (bid taskId : string) (payload : MovePayload) :
  MoveTask bid taskId payload ∈ issued p (run (onDragEnd event) p) →
  moveTask bid taskId payload = false →
  issued p (run (onDragEnd event) p) =
    [MoveTask boardId (active event) payload;
     AddToast "Failed to move task" "error";
     FetchBoard boardId] ∧
  currentBoard (BoardStore.recovered server (run (onDragEnd event) p))
    = Some (server boardId).
Proof.
  intros Hin Hrej.
  pose proof (handleDragEnd_outcome event p) as H.
  assert (∀ q, q = dragCleared p → MoveTask bid taskId payload ∈ issued p q →
               False) as Hclear.
  { intros q -> Hq. rewrite (issued_app p _ []) in Hq;
      [by apply elem_of_nil in Hq|by rewrite app_nil_r]. }
  destruct (over event) as [overId|]; [|by destruct (Hclear _ H Hin)].
  destruct (currentBoard p) as [b|]; [|by destruct (Hclear _ H Hin)].
  destruct (dragOriginRef p) as [origin|]; [|by destruct (Hclear _ H Hin)].
  destruct (findListContainingTask (Some b) (active event));
    [|by destruct (Hclear _ H Hin)].
  destruct (resolveDropTarget (Some b) overId);
    [|by destruct (Hclear _ H Hin)].
  destruct H as (_ & _ & He). clear Hclear.
  rewrite (issued_app _ _ _ He) in Hin |- *.
  unfold BoardStore.recovered. rewrite He. clear He.
  destruct (taskPlace _ _) as [[finalListId finalPosition]|];
    [|by apply elem_of_nil in Hin].
  destruct (_ && _); [by apply elem_of_nil in Hin|].
  cbv zeta in *.
  set (sent := {| list_id := finalListId; position := finalPosition |}) in *.
  assert (bid = boardId ∧ taskId = active event ∧ payload = sent)
    as (-> & -> & ->).
  { apply elem_of_cons in Hin as [[= -> -> ->]|Hin]; [done|].
    destruct (moveTask boardId (active event) sent);
      [by apply elem_of_nil in Hin|].
    apply elem_of_cons in Hin as [?|Hin]; [done|].
    apply elem_of_cons in Hin as [?|Hin]; [done|].
    by apply elem_of_nil in Hin. }
  rewrite Hrej. split; [done|].
  change (MoveTask boardId (active event) sent ::
          [AddToast "Failed to move task" "error"; FetchBoard boardId])
    with ([MoveTask boardId (active event) sent;
           AddToast "Failed to move task" "error"] ++ [FetchBoard boardId]).
  rewrite app_assoc, foldl_app. done.
Qed.

(** C4 (as amended). When the drop is over nothing, or over an id that
    [resolveDropTarget] does not resolve, [handleDragEnd] only clears
    the overlay and the origin: it issues nothing (no persistence
    request and no re-fetch) and leaves the board of the store as the
    drag-over moves made it. *)
Theorem handleDragEnd_unresolved_returns (event : DragEvent) (p : Page) :
  (over event = None ∨
   ∃ overId, over event = Some overId ∧
             resolveDropTarget (currentBoard p) overId = None) →
  run (onDragEnd event) p = dragCleared p ∧
  issued p (run (onDragEnd event) p) = [] ∧
  currentBoard (run (onDragEnd event) p) = currentBoard p.
Proof.
  intros Hun.
  assert (run (onDragEnd event) p = dragCleared p) as ->.
  { pose proof (handleDragEnd_outcome event p) as H.
    destruct Hun as [Hov|(overId & Hov & Hres)]; rewrite Hov in H; [done|].
    destruct (currentBoard p) as [b|]; [|done].
    destruct (dragOriginRef p); [|done].
    rewrite Hres in H.
    by destruct (findListContainingTask (Some b) (active event)). }
  split; [done|]. split; [|done].
  apply issued_app. by rewrite app_nil_r.
Qed.

(** With a resolved drop and a recorded origin, a place of the task at
    the drop that is not the origin is persisted by one request. *)
Lemma handleDragEnd_persists_place
    (event : DragEvent) (p : Page) (overId : string) (b : Board.t)
    (origin : Origin) (target : DropTarget) (place : string * Z) :
  over event = Some overId →
  currentBoard p = Some b →
  dragOriginRef p = Some origin →
  resolveDropTarget (Some b) overId = Some target →
  taskPlace (Some b) (active event) = Some place →
  place ≠ originPlace origin →
  let payload := {| list_id := place.1; position := place.2 |} in
  List.filter isMoveTask (issued p (run (onDragEnd event) p)) =
    [MoveTask boardId (active event) payload] ∧
  issued p (run (onDragEnd event) p) =
    MoveTask boardId (active event) payload ::
    (if moveTask boardId (active event) payload then []
     else [AddToast "Failed to move task" "error"; FetchBoard boardId]).
Proof.
  intros Hover Hb Ho Htgt Hplace Hne payload.
  pose proof (handleDragEnd_outcome event p) as H.
  rewrite Hover, Hb, Ho, Htgt in H.
  destruct (findListContainingTask (Some b) (active event)) eqn:Hcur;
    [|by unfold taskPlace in Hplace; rewrite Hcur in Hplace].
  destruct H as (_ & _ & He).
  rewrite Hplace in He. destruct place as [finalListId finalPosition].
  destruct (_ && _) eqn:Hsame.
  { apply (place_eqb origin (finalListId, finalPosition)) in Hsame. done. }
  rewrite (issued_app _ _ _ He). subst payload. simpl.
  by destruct (moveTask _ _ _).
Qed.

End BoardPageFacts.

(* ------------------------------------------------------------------ *)
(** *** The handlers on the sample board *)
(* ------------------------------------------------------------------ *)

(** [handleDragOver_local] on [A = [T1; T2; T3]], [B = []]: hovering T2
    over the list B moves it there; hovering it over T1, a task of its
    own list, changes nothing. *)
Lemma handleDragOver_local_witness :
  currentBoard
    (run (handleDragOver BoardStore.optimisticMoveTask
            {| active := "T2"; over := Some "B" |})
         (Sample.page [Sample.T1; Sample.T2; Sample.T3] []))
    = Some (Sample.board [Sample.T1; Sample.T3] [Sample.T2]) ∧
  run (handleDragOver BoardStore.optimisticMoveTask
         {| active := "T2"; over := Some "T1" |})
      (Sample.page [Sample.T1; Sample.T2; Sample.T3] [])
    = Sample.page [Sample.T1; Sample.T2; Sample.T3] [].
Proof.
  split.
  - rewrite (proj1 (proj2 (proj2 (proj2
        (handleDragOver_local BoardStore.optimisticMoveTask
           {| active := "T2"; over := Some "B" |}
           (Sample.page [Sample.T1; Sample.T2; Sample.T3] []))))) "B"
        (Sample.board [Sample.T1; Sample.T2; Sample.T3] [])
        (BoardList.mk "A" [Sample.T1; Sample.T2; Sample.T3])
        {| listId := "B"; index := 0 |});
      try reflexivity.
    vm_compute. discriminate.
  - apply (handleDragOver_local BoardStore.optimisticMoveTask).
    right; right; right.
    exists "T1", (BoardList.mk "A" [Sample.T1; Sample.T2; Sample.T3]),
      {| listId := "A"; index := 0 |}.
    repeat split; reflexivity.
Defined.


(** [handleDragEnd_rejected_refetches] when T2 is dropped on the list B
    and the server rejects the move; the server still has T2 in A. *)
Lemma handleDragEnd_rejected_refetches_witness :
  issued
    (dragged BoardStore.optimisticMoveTask "T2" [Some "B"]
       (Sample.page [Sample.T1; Sample.T2; Sample.T3] []))
    (gesture "board" BoardStore.optimisticMoveTask Sample.reject
       "T2" [Some "B"] (Some "B")
       (Sample.page [Sample.T1; Sample.T2; Sample.T3] []))
    = [MoveTask "board" "T2" {| list_id := "B"; position := 0 |};
       AddToast "Failed to move task" "error";
       FetchBoard "board"] ∧
  currentBoard
    (BoardStore.recovered
       (λ _, Sample.board [Sample.T1; Sample.T2; Sample.T3] [])
       (gesture "board" BoardStore.optimisticMoveTask Sample.reject
          "T2" [Some "B"] (Some "B")
          (Sample.page [Sample.T1; Sample.T2; Sample.T3] [])))
    = Some (Sample.board [Sample.T1; Sample.T2; Sample.T3] []).
Proof.
  apply (handleDragEnd_rejected_refetches
           "board" BoardStore.optimisticMoveTask Sample.reject
           (λ _, Sample.board [Sample.T1; Sample.T2; Sample.T3] [])
           {| active := "T2"; over := Some "B" |}
           (dragged BoardStore.optimisticMoveTask "T2" [Some "B"]
              (Sample.page [Sample.T1; Sample.T2; Sample.T3] []))
           "board" "T2" {| list_id := "B"; position := 0 |}).
  - vm_compute. left.
  - reflexivity.
Defined.

(** C4 (as stated) fails: T2 is moved to the list B by a drag-over, the
    drop is over an id the board does not know, and the handler issues
    no re-fetch; the board keeps the optimistic move. *)
Lemma handleDragEnd_stale_target_no_refetch :
  currentBoard
    (dragged BoardStore.optimisticMoveTask "T2" [Some "B"]
       (Sample.page [Sample.T1; Sample.T2; Sample.T3] []))
    = Some (Sample.board [Sample.T1; Sample.T3] [Sample.T2]) ∧
  resolveDropTarget
    (Some (Sample.board [Sample.T1; Sample.T3] [Sample.T2])) "T9" = None ∧
  effects
    (gesture "board" BoardStore.optimisticMoveTask Sample.accept
       "T2" [Some "B"] (Some "T9")
       (Sample.page [Sample.T1; Sample.T2; Sample.T3] [])) = [] ∧
  effects
    (gesture "board" BoardStore.optimisticMoveTask Sample.accept
       "T2" [Some "B"] None
       (Sample.page [Sample.T1; Sample.T2; Sample.T3] [])) = [] ∧
  currentBoard
    (gesture "board" BoardStore.optimisticMoveTask Sample.accept
       "T2" [Some "B"] (Some "T9")
       (Sample.page [Sample.T1; Sample.T2; Sample.T3] []))
    = Some (Sample.board [Sample.T1; Sample.T3] [Sample.T2]).
Proof. repeat split; reflexivity. Qed.

(** [handleDragEnd_unresolved_returns] on the same gesture. *)
Lemma handleDragEnd_unresolved_returns_witness :
  issued
    (dragged BoardStore.optimisticMoveTask "T2" [Some "B"]
       (Sample.page [Sample.T1; Sample.T2; Sample.T3] []))
    (gesture "board" BoardStore.optimisticMoveTask Sample.accept
       "T2" [Some "B"] (Some "T9")
       (Sample.page [Sample.T1; Sample.T2; Sample.T3] [])) = [].
Proof.
  apply (handleDragEnd_unresolved_returns
           "board" BoardStore.optimisticMoveTask Sample.accept
           {| active := "T2"; over := Some "T9" |}
           (dragged BoardStore.optimisticMoveTask "T2" [Some "B"]
              (Sample.page [Sample.T1; Sample.T2; Sample.T3] []))).
  right. exists "T9". split; reflexivity.
Defined.

(** C9 (as stated) fails: T2 is taken from A, index 1, to the list B by
    a drag-over and released over nothing; its final place, B at index
    0 after the drag-over move and after the drop, is not its origin,
    and no persistence request goes out. *)
Lemma handleDragEnd_drop_outside_no_request :
  dragOriginRef
    (dragged BoardStore.optimisticMoveTask "T2" [Some "B"]
       (Sample.page [Sample.T1; Sample.T2; Sample.T3] []))
    = Some {| origin_listId := "A"; origin_position := 1 |} ∧
  taskPlace
    (currentBoard
       (dragged BoardStore.optimisticMoveTask "T2" [Some "B"]
          (Sample.page [Sample.T1; Sample.T2; Sample.T3] []))) "T2"
    = Some ("B", 0) ∧
  taskPlace
    (currentBoard
       (gesture "board" BoardStore.optimisticMoveTask Sample.accept
          "T2" [Some "B"] None
          (Sample.page [Sample.T1; Sample.T2; Sample.T3] []))) "T2"
    = Some ("B", 0) ∧
  List.filter isMoveTask
    (effects
       (gesture "board" BoardStore.optimisticMoveTask Sample.accept
          "T2" [Some "B"] None
          (Sample.page [Sample.T1; Sample.T2; Sample.T3] []))) = [].
Proof. repeat split; reflexivity. Qed.

(** C9 (as amended). When the drop is over an element that
    [resolveDropTarget] resolves, the origin of the dragged task was
    recorded, and the place of the task (the id of its list and its
    index there) read from the board as the drag-over moves left it is
    also its place on the board [handleDragEnd] leaves and differs from
    the origin, the handler issues exactly one persistence request; its
    payload is that place.  (The toast and the re-fetch follow when the
    request is rejected.)  A drop whose reorder within the list changes
    the place of the task is outside this statement. *)
Theorem handleDragEnd_one_request
    (boardId : string)
    (optimisticMoveTask : Board.t → string → string → string → Z → Board.t)
    (moveTask : string → string → MovePayload → bool)
    (event : DragEvent) (p : Page) (overId : string) (b : Board.t)
    (origin : Origin) (target : DropTarget) (place : string * Z) :
  over event = Some overId →
  currentBoard p = Some b →
  dragOriginRef p = Some origin →
  resolveDropTarget (Some b) overId = Some target →
  taskPlace (Some b) (active event) = Some place →
  taskPlace
    (currentBoard
       (run (handleDragEnd boardId optimisticMoveTask moveTask event) p))
    (active event) = Some place →
  place ≠ originPlace origin →
  List.filter isMoveTask
    (issued p
       (run (handleDragEnd boardId optimisticMoveTask moveTask event) p))
  = [MoveTask boardId (active event)
       {| list_id := place.1; position := place.2 |}].
Proof.
  intros Hover Hb Ho Htgt Hplace _ Hne.
  by apply (handleDragEnd_persists_place
              boardId optimisticMoveTask moveTask event p overId b origin
              target place).
Qed.

(** [handleDragEnd_one_request] when T2, taken to the list B by a
    drag-over, is dropped on that list: one request, for B at index 0. *)
Lemma handleDragEnd_one_request_witness :
  List.filter isMoveTask
    (issued
       (dragged BoardStore.optimisticMoveTask "T2" [Some "B"]
          (Sample.page [Sample.T1; Sample.T2; Sample.T3] []))
       (gesture "board" BoardStore.optimisticMoveTask Sample.accept
          "T2" [Some "B"] (Some "B")
          (Sample.page [Sample.T1; Sample.T2; Sample.T3] [])))
    = [MoveTask "board" "T2" {| list_id := "B"; position := 0 |}] ∧
  currentBoard
    (gesture "board" BoardStore.optimisticMoveTask Sample.accept
       "T2" [Some "B"] (Some "B")
       (Sample.page [Sample.T1; Sample.T2; Sample.T3] []))
    = Some (Sample.board [Sample.T1; Sample.T3] [Sample.T2]).
Proof.
  split; [|reflexivity].
  apply (handleDragEnd_one_request
           "board" BoardStore.optimisticMoveTask Sample.accept
           {| active := "T2"; over := Some "B" |}
           (dragged BoardStore.optimisticMoveTask "T2" [Some "B"]
              (Sample.page [Sample.T1; Sample.T2; Sample.T3] []))
           "B" (Sample.board [Sample.T1; Sample.T3] [Sample.T2])
           {| origin_listId := "A"; origin_position := 1 |}
           {| listId := "B"; index := 1 |} ("B", 0));
    try reflexivity.
  vm_compute. discriminate.
Defined.

(** The reorder within a list at the drop.  T3 is dropped on T1 in
    [A = [T1; T2; T3]]: the store gets [A = [T3; T1; T2]], and the
    comparison under "If nothing changed from origin" is made with the
    index T3 has on the board of the render, 2, which is its origin, so
    that no request goes out. *)
Lemma handleDragEnd_reorder_not_persisted :
  gesture "board" BoardStore.optimisticMoveTask Sample.accept
    "T3" [] (Some "T1") (Sample.page [Sample.T1; Sample.T2; Sample.T3] [])
  = {| currentBoard := Some (Sample.board [Sample.T3; Sample.T1; Sample.T2] []);
       activeTask := None;
       dragOriginRef := None;
       effects := [] |}.
Proof. reflexivity. Qed.

(** The same read decides the payload.  T1 is taken to the list B, back
    to A behind T2, and dropped on T2: the store ends with T1 at index
    0 of A, where it started, and the request that goes out is for A
    at index 1, the index on the board of the render. *)
Lemma handleDragEnd_reorder_payload :
  currentBoard
    (dragged BoardStore.optimisticMoveTask "T1" [Some "B"; Some "T3"]
       (Sample.page [Sample.T1; Sample.T2; Sample.T3] []))
    = Some (Sample.board [Sample.T2; Sample.T1; Sample.T3] []) ∧
  gesture "board" BoardStore.optimisticMoveTask Sample.accept
    "T1" [Some "B"; Some "T3"] (Some "T2")
    (Sample.page [Sample.T1; Sample.T2; Sample.T3] [])
  = {| currentBoard := Some (Sample.board [Sample.T1; Sample.T2; Sample.T3] []);
       activeTask := None;
       dragOriginRef := None;
       effects :=
         [MoveTask "board" "T1" {| list_id := "A"; position := 1 |}] |}.
Proof. split; reflexivity. Qed.

(* ================================================================== *)
(** ** Facts about the member search *)
(* ================================================================== *)

Lemma elem_of_existingIds (board : Board.t) (x : string) :
  x ∈ BoardMembersModal.existingIds board ↔
  x = Board.owner_id board ∨
  ∃ m, m ∈ Board.members board ∧ BoardMember.user_id m = x.
Proof.
  unfold BoardMembersModal.existingIds.
  rewrite elem_of_list_to_set, elem_of_cons.
  change (map BoardMember.user_id (Board.members board))
    with (BoardMember.user_id <$> Board.members board).
  rewrite list_elem_of_fmap. split.
  - intros [->|(m & -> & Hm)]; [by left|right; by exists m].
  - intros [->|(m & Hm & <-)]; [by left|right; by exists m].
Qed.

(** C10. After a fulfilled search the results are exactly the users the
    server sent whose id is neither the owner's nor a member's, so none
    of the users shown is the owner or a member; after a rejected
    search the results are empty.  Either way the search is over. *)
Theorem searchSettled_results
    (board : Board.t) (users : list UserSearchResult.t)
    (s : BoardMembersModal.State) :
  (∀ u, u ∈ BoardMembersModal.results
              (BoardMembersModal.searchSettled board (Some users) s) ↔
        u ∈ users ∧
        UserSearchResult.id u ≠ Board.owner_id board ∧
        ¬ ∃ m, m ∈ Board.members board ∧
               BoardMember.user_id m = UserSearchResult.id u) ∧
  BoardMembersModal.results
    (BoardMembersModal.searchSettled board None s) = [] ∧
  BoardMembersModal.searching
    (BoardMembersModal.searchSettled board (Some users) s) = false ∧
  BoardMembersModal.searching
    (BoardMembersModal.searchSettled board None s) = false.
Proof.
  split; [|done]. intros u. simpl.
  rewrite list_elem_of_filter, elem_of_existingIds. split.
  - intros [Hnot Hu]. split; [done|]. split.
    + intros Hown. apply Hnot. by left.
    + intros Hmem. apply Hnot. by right.
  - intros (Hu & Hown & Hmem). split; [|done]. by intros [?|?].
Qed.

(* ================================================================== *)
(** ** Facts about the board store *)
(* ================================================================== *)

Section TaskSequences.

Implicit Types (t : Task.t) (ts : list Task.t) (taskId : string).

Lemma isTask_true taskId t : isTask taskId t = true ↔ Task.id t = taskId.
Proof. apply String.eqb_eq. Qed.

Lemma isTask_false taskId t : isTask taskId t = false ↔ Task.id t ≠ taskId.
Proof. apply String.eqb_neq. Qed.

Lemma isList_true (listId : string) (l : BoardList.t) :
  isList listId l = true ↔ BoardList.id l = listId.
Proof. apply String.eqb_eq. Qed.

Lemma isList_false (listId : string) (l : BoardList.t) :
  isList listId l = false ↔ BoardList.id l ≠ listId.
Proof. apply String.eqb_neq. Qed.

(** The task [find] answers splits the sequence: nothing before it has
    its id, and [removeTask] takes exactly it out. *)
Lemma find_isTask_split taskId ts t :
  find (isTask taskId) ts = Some t →
  ∃ pre post,
    ts = pre ++ t :: post ∧ Task.id t = taskId ∧
    (∀ x, x ∈ pre → Task.id x ≠ taskId) ∧
    BoardStore.removeTask taskId ts = pre ++ post ∧
    findIndex (isTask taskId) ts = Z.of_nat (length pre).
Proof.
  induction ts as [|x ts IH]; simpl; [done|].
  destruct (isTask taskId x) eqn:Hx.
  - intros [= ->]. exists [], ts. repeat split; try done.
    + by apply isTask_true.
    + intros x Hin. by apply elem_of_nil in Hin.
  - intros (pre & post & -> & Hid & Hpre & Hrem & Hidx)%IH.
    exists (x :: pre), post. repeat split; try done.
    + intros y [->|Hy]%elem_of_cons; [by apply isTask_false|by apply Hpre].
    + simpl. by rewrite Hrem.
    + rewrite Hidx. simpl length.
      destruct (Z.eqb_spec (Z.of_nat (length pre)) (-1)); lia.
Qed.

Lemma find_isTask_none taskId ts :
  find (isTask taskId) ts = None ↔ ∀ x, x ∈ ts → Task.id x ≠ taskId.
Proof.
  split.
  - intros H x Hx. apply isTask_false.
    apply (find_none _ _ H). by apply list_elem_of_In.
  - intros H. destruct (find (isTask taskId) ts) as [t|] eqn:Hf; [|done].
    apply find_some in Hf as [Hin Hid].
    apply list_elem_of_In in Hin. apply isTask_true in Hid.
    by destruct (H t Hin).
Qed.

Lemma removeTask_subset taskId ts x :
  x ∈ BoardStore.removeTask taskId ts → x ∈ ts.
Proof.
  induction ts as [|y ts IH]; simpl; [done|].
  destruct (isTask taskId y); [by right|].
  intros [->|Hx]%elem_of_cons; [by left|right; by apply IH].
Qed.

(** With distinct ids, no task of the removed id is left. *)
Lemma removeTask_gone taskId ts :
  NoDup (map Task.id ts) →
  ∀ x, x ∈ BoardStore.removeTask taskId ts → Task.id x ≠ taskId.
Proof.
  induction ts as [|y ts IH]; simpl; [by intros _ x Hx%elem_of_nil|].
  intros [Hy Hnd]%NoDup_cons. destruct (isTask taskId y) eqn:Hy'.
  - apply isTask_true in Hy'. subst taskId. intros x Hx Hid.
    apply Hy. rewrite <- Hid.
    change (map Task.id ts) with (Task.id <$> ts).
    by apply list_elem_of_fmap_2.
  - intros x [->|Hx]%elem_of_cons; [by apply isTask_false|by apply IH].
Qed.

Lemma removeTask_keeps taskId ts x :
  x ∈ ts → Task.id x ≠ taskId → x ∈ BoardStore.removeTask taskId ts.
Proof.
  induction ts as [|y ts IH]; simpl; [done|].
  intros [->|Hx]%elem_of_cons Hid.
  - apply isTask_false in Hid. rewrite Hid. by left.
  - destruct (isTask taskId y); [done|]. right. by apply IH.
Qed.

Lemma insertAt_perm (i : Z) t ts : BoardStore.insertAt i t ts ≡ₚ t :: ts.
Proof.
  unfold BoardStore.insertAt.
  rewrite <- (take_drop (Z.to_nat i) ts) at 3.
  by rewrite Permutation_middle.
Qed.

Lemma elem_of_insertAt (i : Z) t ts x :
  x ∈ BoardStore.insertAt i t ts ↔ x = t ∨ x ∈ ts.
Proof. by rewrite insertAt_perm, elem_of_cons. Qed.

Lemma insertAt_front t ts : BoardStore.insertAt 0 t ts = t :: ts.
Proof. unfold BoardStore.insertAt. simpl. by rewrite drop_0. Qed.

Lemma insertAt_split t (pre post : list Task.t) :
  BoardStore.insertAt (Z.of_nat (length pre)) t (pre ++ post)
  = pre ++ t :: post.
Proof.
  unfold BoardStore.insertAt. rewrite Nat2Z.id.
  by rewrite take_app_length, drop_app_length.
Qed.

(** Taking out a task that was just put in gives the sequence back. *)
Lemma removeTask_insertAt (i : Z) t ts :
  (∀ x, x ∈ ts → Task.id x ≠ Task.id t) →
  BoardStore.removeTask (Task.id t) (BoardStore.insertAt i t ts) = ts.
Proof.
  intros H. unfold BoardStore.insertAt.
  rewrite <- (take_drop (Z.to_nat i) ts) at 3.
  assert (∀ x, x ∈ take (Z.to_nat i) ts → Task.id x ≠ Task.id t) as Hpre.
  { intros x Hx. apply H. by apply (subseteq_take (Z.to_nat i)). }
  induction (take (Z.to_nat i) ts) as [|y pre IH]; simpl.
  - assert (isTask (Task.id t) t = true) as -> by (by apply isTask_true).
    done.
  - assert (isTask (Task.id t) y = false) as ->.
    { apply isTask_false, Hpre. by left. }
    rewrite IH; [done|]. intros x Hx. apply Hpre. by right.
Qed.

Lemma find_insertAt (i : Z) t ts :
  (∀ x, x ∈ ts → Task.id x ≠ Task.id t) →
  find (isTask (Task.id t)) (BoardStore.insertAt i t ts) = Some t.
Proof.
  intros H. unfold BoardStore.insertAt.
  assert (∀ x, x ∈ take (Z.to_nat i) ts → Task.id x ≠ Task.id t) as Hpre.
  { intros x Hx. apply H. by apply (subseteq_take (Z.to_nat i)). }
  induction (take (Z.to_nat i) ts) as [|y pre IH]; simpl.
  - assert (isTask (Task.id t) t = true) as -> by (by apply isTask_true).
    done.
  - assert (isTask (Task.id t) y = false) as ->.
    { apply isTask_false, Hpre. by left. }
    apply IH. intros x Hx. apply Hpre. by right.
Qed.

(** With distinct ids, the position the handlers compute for a task is
    its index in the sequence. *)
Lemma findIndex_distinct ts (i : nat) t :
  NoDup (map Task.id ts) → ts !! i = Some t →
  findIndex (isTask (Task.id t)) ts = Z.of_nat i.
Proof.
  intros Hnd Hi. apply findIndex_lookup. split.
  - exists t. split; [done|by apply isTask_true].
  - intros j y Hj Hy. apply isTask_false. intros Hid.
    assert (j = i); [|lia].
    apply (NoDup_lookup (map Task.id ts) j i (Task.id t) Hnd).
    + change (map Task.id ts) with (Task.id <$> ts).
      by rewrite list_lookup_fmap, Hy, <- Hid.
    + change (map Task.id ts) with (Task.id <$> ts).
      by rewrite list_lookup_fmap, Hi.
Qed.

End TaskSequences.

Section BoardMoves.

Implicit Types (b : Board.t) (l : BoardList.t) (ls : list BoardList.t)
  (t : Task.t) (taskId fromListId toListId : string) (i : Z).

Lemma allTasks_cons l ls : allTasks (l :: ls) = BoardList.tasks l ++ allTasks ls.
Proof. done. Qed.

Lemma allTasks_elem ls x :
  x ∈ allTasks ls ↔ ∃ l, l ∈ ls ∧ x ∈ BoardList.tasks l.
Proof.
  induction ls as [|l ls IH].
  - split; [by intros ?%elem_of_nil|by intros (l & ?%elem_of_nil & _)].
  - rewrite allTasks_cons, elem_of_app, IH. split.
    + intros [Hx|(l' & Hl' & Hx)]; [exists l|exists l'];
        (split; [|done]); [by left|by right].
    + intros (l' & [->|Hl']%elem_of_cons & Hx); [by left|right; by exists l'].
Qed.

Lemma takeOut_id taskId fromListId l :
  BoardList.id (BoardStore.takeOut taskId fromListId l) = BoardList.id l.
Proof. unfold BoardStore.takeOut. by destruct (isList fromListId l). Qed.

Lemma putIn_id t toListId i l :
  BoardList.id (BoardStore.putIn t toListId i l) = BoardList.id l.
Proof. unfold BoardStore.putIn. by destruct (isList toListId l). Qed.

Lemma moveInList_id t fromListId toListId i l :
  BoardList.id (BoardStore.moveInList t fromListId toListId i l)
  = BoardList.id l.
Proof. unfold BoardStore.moveInList. by rewrite putIn_id, takeOut_id. Qed.

Lemma moveInList_tasks t fromListId toListId i l :
  BoardList.tasks (BoardStore.moveInList t fromListId toListId i l) =
  (if isList toListId l then BoardStore.insertAt i t else id)
    ((if isList fromListId l then BoardStore.removeTask (Task.id t) else id)
       (BoardList.tasks l)).
Proof.
  unfold BoardStore.moveInList, BoardStore.putIn, BoardStore.takeOut, isList.
  destruct (String.eqb (BoardList.id l) fromListId); simpl;
    by destruct (String.eqb (BoardList.id l) toListId).
Qed.

Lemma with_tasks_same l : BoardList.with_tasks l (BoardList.tasks l) = l.
Proof. by destruct l. Qed.

Lemma list_eq_by_fields l l' :
  BoardList.id l = BoardList.id l' → BoardList.tasks l = BoardList.tasks l' →
  l = l'.
Proof. destruct l, l'; simpl. by intros -> ->. Qed.

Lemma map_ids_preserved (f : BoardList.t → BoardList.t) ls :
  (∀ l, BoardList.id (f l) = BoardList.id l) →
  map BoardList.id (map f ls) = map BoardList.id ls.
Proof.
  intros Hf. rewrite map_map. apply map_ext. intros l. apply Hf.
Qed.

(** A map that keeps the ids commutes with the search by id. *)
Lemma find_isList_map (f : BoardList.t → BoardList.t) (listId : string) ls :
  (∀ l, BoardList.id (f l) = BoardList.id l) →
  find (isList listId) (map f ls) = f <$> find (isList listId) ls.
Proof.
  intros Hf. induction ls as [|l ls IH]; simpl; [done|].
  unfold isList at 1. rewrite Hf. fold (isList listId l).
  by destruct (isList listId l).
Qed.

Lemma map_unchanged (f : BoardList.t → BoardList.t) ls :
  (∀ l, l ∈ ls → f l = l) → map f ls = ls.
Proof.
  intros Hf. induction ls as [|l ls IH]; simpl; [done|].
  rewrite Hf by (by left). rewrite IH; [done|].
  intros l' Hl'. apply Hf. by right.
Qed.

Lemma not_in_ids ls l (listId : string) :
  listId ∉ map BoardList.id ls → l ∈ ls → isList listId l = false.
Proof.
  intros Hnot Hl. apply isList_false. intros Hid. apply Hnot.
  rewrite <- Hid. change (map BoardList.id ls) with (BoardList.id <$> ls).
  by apply list_elem_of_fmap_2.
Qed.

(** With distinct list ids, a list is known by its id. *)
Lemma find_isList_distinct ls l :
  NoDup (map BoardList.id ls) → l ∈ ls →
  find (isList (BoardList.id l)) ls = Some l.
Proof.
  induction ls as [|l' ls IH]; simpl; [by intros _ ?%elem_of_nil|].
  intros [Hl' Hnd]%NoDup_cons [->|Hl]%elem_of_cons.
  - assert (isList (BoardList.id l') l' = true) as ->; [|done].
    by apply isList_true.
  - assert (isList (BoardList.id l) l' = false) as ->; [|by apply IH].
    apply isList_false. intros Hid. apply Hl'. rewrite Hid.
    change (map BoardList.id ls) with (BoardList.id <$> ls).
    by apply list_elem_of_fmap_2.
Qed.

(** Taking the task out of its list takes it out of the board. *)
Lemma map_takeOut_perm taskId fromListId ls source t :
  NoDup (map BoardList.id ls) →
  find (isList fromListId) ls = Some source →
  find (isTask taskId) (BoardList.tasks source) = Some t →
  allTasks ls ≡ₚ t :: allTasks (map (BoardStore.takeOut taskId fromListId) ls).
Proof.
  induction ls as [|l ls IH]; simpl; [done|].
  intros [Hl Hnd]%NoDup_cons. unfold BoardStore.takeOut at 1.
  destruct (isList fromListId l) eqn:Hid.
  - intros [= ->] Hfind. apply isList_true in Hid. subst fromListId.
    rewrite (map_unchanged _ ls).
    2:{ intros l' Hl'. unfold BoardStore.takeOut.
        by rewrite (not_in_ids ls l' _ Hl Hl'). }
    rewrite !allTasks_cons. simpl.
    apply find_isTask_split in Hfind
      as (pre & post & -> & _ & _ & -> & _).
    by rewrite <- Permutation_middle.
  - intros Hsrc Hfind. rewrite !allTasks_cons.
    rewrite (IH Hnd Hsrc Hfind). by rewrite Permutation_middle.
Qed.

(** Putting the task in the destination list adds it to the board. *)
Lemma map_putIn_perm t toListId i ls destination :
  NoDup (map BoardList.id ls) →
  find (isList toListId) ls = Some destination →
  allTasks (map (BoardStore.putIn t toListId i) ls) ≡ₚ t :: allTasks ls.
Proof.
  induction ls as [|l ls IH]; simpl; [done|].
  intros [Hl Hnd]%NoDup_cons. unfold BoardStore.putIn at 1.
  destruct (isList toListId l) eqn:Hid.
  - intros _. apply isList_true in Hid. subst toListId.
    rewrite (map_unchanged _ ls).
    2:{ intros l' Hl'. unfold BoardStore.putIn.
        by rewrite (not_in_ids ls l' _ Hl Hl'). }
    rewrite !allTasks_cons. simpl. by rewrite insertAt_perm.
  - intros Hdst. rewrite !allTasks_cons.
    rewrite (IH Hnd Hdst). by rewrite Permutation_middle.
Qed.

(** [optimisticMoveTask] either moves the task it found in the source
    list, or leaves the board as it is. *)
Lemma optimisticMoveTask_cases b taskId fromListId toListId i :
  (∃ source destination t,
     find (isList fromListId) (Board.lists b) = Some source ∧
     find (isList toListId) (Board.lists b) = Some destination ∧
     find (isTask taskId) (BoardList.tasks source) = Some t ∧
     Task.id t = taskId ∧
     BoardStore.optimisticMoveTask b taskId fromListId toListId i =
     Board.with_lists b
       (map (BoardStore.moveInList t fromListId toListId i) (Board.lists b))) ∨
  ((find (isList fromListId) (Board.lists b) = None ∨
    find (isList toListId) (Board.lists b) = None ∨
    ∃ source, find (isList fromListId) (Board.lists b) = Some source ∧
              find (isTask taskId) (BoardList.tasks source) = None) ∧
   BoardStore.optimisticMoveTask b taskId fromListId toListId i = b).
Proof.
  unfold BoardStore.optimisticMoveTask.
  destruct (find (isList fromListId) (Board.lists b)) as [source|];
    [|right; split; [by left|done]].
  destruct (find (isList toListId) (Board.lists b)) as [destination|];
    [|right; split; [by right; left|done]].
  destruct (find (isTask taskId) (BoardList.tasks source)) as [t|] eqn:Ht.
  - left. exists source, destination, t. repeat split; try done.
    apply find_some in Ht as [_ Ht]. by apply isTask_true.
  - right. split; [|done]. right; right. by exists source.
Qed.

Lemma optimisticMoveTask_ids b taskId fromListId toListId i :
  map BoardList.id
    (Board.lists (BoardStore.optimisticMoveTask b taskId fromListId toListId i))
  = map BoardList.id (Board.lists b).
Proof.
  destruct (optimisticMoveTask_cases b taskId fromListId toListId i)
    as [(source & destination & t & _ & _ & _ & _ & ->)|[_ ->]]; [|done].
  simpl. apply map_ids_preserved. intros l. apply moveInList_id.
Qed.

(** A move keeps the tasks of the board: it only rearranges them. *)
Lemma optimisticMoveTask_perm b taskId fromListId toListId i :
  listIdsDistinct b →
  allTasks
    (Board.lists (BoardStore.optimisticMoveTask b taskId fromListId toListId i))
  ≡ₚ allTasks (Board.lists b).
Proof.
  intros Hnd.
  destruct (optimisticMoveTask_cases b taskId fromListId toListId i)
    as [(source & destination & t & Hsrc & Hdst & Ht & Hid & ->)|[_ ->]];
    [|done].
  simpl. unfold BoardStore.moveInList.
  rewrite <- (map_map (BoardStore.takeOut (Task.id t) fromListId)
                      (BoardStore.putIn t toListId i)).
  rewrite (map_putIn_perm t toListId i _
             (BoardStore.takeOut (Task.id t) fromListId destination)).
  - symmetry. rewrite Hid. by eapply map_takeOut_perm.
  - rewrite map_ids_preserved; [done|]. intros l. apply takeOut_id.
  - rewrite find_isList_map, Hdst; [done|]. intros l. apply takeOut_id.
Qed.

Lemma optimisticMoveTask_wellFormed b taskId fromListId toListId i :
  wellFormed b →
  wellFormed (BoardStore.optimisticMoveTask b taskId fromListId toListId i).
Proof.
  intros [Hl Ht]. split.
  - unfold listIdsDistinct. by rewrite optimisticMoveTask_ids.
  - unfold taskIdsDistinct.
    change (map Task.id ?x) with (Task.id <$> x).
    rewrite (optimisticMoveTask_perm b taskId fromListId toListId i Hl).
    exact Ht.
Qed.

Lemma applyMoves_wellFormed b (ms : list BoardStore.Move) :
  wellFormed b → wellFormed (BoardStore.applyMoves b ms).
Proof.
  revert b. induction ms as [|m ms IH]; intros b Hwf; [done|].
  simpl. apply IH. by apply optimisticMoveTask_wellFormed.
Qed.

Lemma applyMoves_perm b (ms : list BoardStore.Move) :
  listIdsDistinct b →
  allTasks (Board.lists (BoardStore.applyMoves b ms))
  ≡ₚ allTasks (Board.lists b).
Proof.
  revert b. induction ms as [|m ms IH]; intros b Hnd; [done|].
  simpl. rewrite IH.
  - by apply optimisticMoveTask_perm.
  - unfold listIdsDistinct, BoardStore.applyMove.
    by rewrite optimisticMoveTask_ids.
Qed.

(** Distinct task ids on the board are distinct in each list. *)
Lemma taskIds_list_distinct ls l :
  NoDup (map Task.id (allTasks ls)) → l ∈ ls →
  NoDup (map Task.id (BoardList.tasks l)).
Proof.
  induction ls as [|l' ls IH]; [by intros _ ?%elem_of_nil|].
  rewrite allTasks_cons, map_app.
  intros (Hl' & _ & Hls)%NoDup_app [->|Hl]%elem_of_cons; [done|by apply IH].
Qed.

(** With distinct task ids, tasks of the same id in two lists of the
    board are in the same list, at the same place of the board. *)
Lemma taskIds_one_list ls (n m : nat) l1 l2 t1 t2 :
  NoDup (map Task.id (allTasks ls)) →
  ls !! n = Some l1 → ls !! m = Some l2 →
  t1 ∈ BoardList.tasks l1 → t2 ∈ BoardList.tasks l2 →
  Task.id t1 = Task.id t2 → n = m.
Proof.
  revert n m. induction ls as [|l ls IH]; intros n m; [done|].
  rewrite allTasks_cons, map_app.
  intros (Hl & Hdisj & Hls)%NoDup_app Hn Hm Ht1 Ht2 Hid.
  assert (∀ k l' t t', ls !! k = Some l' → t ∈ BoardList.tasks l →
            t' ∈ BoardList.tasks l' → Task.id t = Task.id t' → False) as Hx.
  { intros k l' t t' Hk Ht Ht' Hid'.
    apply (Hdisj (Task.id t)).
    - change (map Task.id ?x) with (Task.id <$> x).
      by apply list_elem_of_fmap_2.
    - rewrite Hid'. change (map Task.id ?x) with (Task.id <$> x).
      apply list_elem_of_fmap_2. apply allTasks_elem. exists l'.
      split; [by eapply list_elem_of_lookup_2|done]. }
  destruct n as [|n], m as [|m]; simpl in *.
  - done.
  - injection Hn as <-. destruct (Hx m l2 t1 t2 Hm Ht1 Ht2 Hid).
  - injection Hm as <-. destruct (Hx n l1 t2 t1 Hn Ht2 Ht1 (eq_sym Hid)).
  - f_equal. by eapply IH.
Qed.

Lemma taskIds_same_task ts t1 t2 :
  NoDup (map Task.id ts) → t1 ∈ ts → t2 ∈ ts →
  Task.id t1 = Task.id t2 → t1 = t2.
Proof.
  intros Hnd (n & Hn)%list_elem_of_lookup (m & Hm)%list_elem_of_lookup Hid.
  assert (n = m) as ->; [|congruence].
  apply (NoDup_lookup (map Task.id ts) n m (Task.id t1) Hnd);
    change (map Task.id ts) with (Task.id <$> ts);
    rewrite list_lookup_fmap; [by rewrite Hn|by rewrite Hm, Hid].
Qed.

End BoardMoves.

(** C8. Whatever sequence of moves is applied to a well-formed board,
    on the board that results no two tasks of a list have the same
    position, the positions of a list grow along its visible order,
    and tasks of the same id are one task in one list; the moves lose
    and add no task, and the board is well-formed again.  The position
    of a task is the one the handlers compute, its [findIndex] by id
    in the list. *)
Theorem applyMoves_invariant (b : Board.t) (ms : list BoardStore.Move) :
  wellFormed b →
  (∀ l t1 t2,
     l ∈ Board.lists (BoardStore.applyMoves b ms) →
     t1 ∈ BoardList.tasks l → t2 ∈ BoardList.tasks l →
     findIndex (isTask (Task.id t1)) (BoardList.tasks l)
       = findIndex (isTask (Task.id t2)) (BoardList.tasks l) →
     t1 = t2) ∧
  (∀ l (n m : nat) t1 t2,
     l ∈ Board.lists (BoardStore.applyMoves b ms) →
     BoardList.tasks l !! n = Some t1 → BoardList.tasks l !! m = Some t2 →
     (n < m)%nat →
     findIndex (isTask (Task.id t1)) (BoardList.tasks l)
       < findIndex (isTask (Task.id t2)) (BoardList.tasks l)) ∧
  (∀ (n m : nat) l1 l2 t1 t2,
     Board.lists (BoardStore.applyMoves b ms) !! n = Some l1 →
     Board.lists (BoardStore.applyMoves b ms) !! m = Some l2 →
     t1 ∈ BoardList.tasks l1 → t2 ∈ BoardList.tasks l2 →
     Task.id t1 = Task.id t2 →
     n = m ∧ t1 = t2) ∧
  allTasks (Board.lists (BoardStore.applyMoves b ms))
    ≡ₚ allTasks (Board.lists b) ∧
  wellFormed (BoardStore.applyMoves b ms).
Proof.
  intros Hwf.
  pose proof (applyMoves_wellFormed b ms Hwf) as Hwf'.
  pose proof (applyMoves_perm b ms (proj1 Hwf)) as Hperm.
  destruct Hwf' as [Hlists Htasks].
  set (b' := BoardStore.applyMoves b ms) in *. unfold taskIdsDistinct in Htasks.
  split; [|split; [|split; [|split]]]; try done.
  - intros l t1 t2 Hl (n & Hn)%list_elem_of_lookup (m & Hm)%list_elem_of_lookup.
    pose proof (taskIds_list_distinct _ l Htasks Hl) as Hnd.
    rewrite (findIndex_distinct _ n t1 Hnd Hn).
    rewrite (findIndex_distinct _ m t2 Hnd Hm).
    intros Heq. assert (n = m) as -> by lia. congruence.
  - intros l n m t1 t2 Hl Hn Hm Hlt.
    pose proof (taskIds_list_distinct _ l Htasks Hl) as Hnd.
    rewrite (findIndex_distinct _ n t1 Hnd Hn).
    rewrite (findIndex_distinct _ m t2 Hnd Hm). lia.
  - intros n m l1 l2 t1 t2 Hn Hm Ht1 Ht2 Hid.
    assert (n = m) as ->
      by (by eapply (taskIds_one_list (Board.lists b') n m l1 l2 t1 t2)).
    split; [done|]. assert (l1 = l2) as -> by congruence.
    eapply taskIds_same_task; [|done..].
    eapply taskIds_list_distinct; [done|].
    by eapply list_elem_of_lookup_2.
Qed.

(** [applyMoves_invariant] after two moves on the sample board. *)
Lemma applyMoves_invariant_witness :
  wellFormed
    (BoardStore.applyMoves
       (Sample.board [Sample.T1; Sample.T2; Sample.T3] [])
       [{| BoardStore.move_task := "T2"; BoardStore.move_from := "A";
           BoardStore.move_to := "B"; BoardStore.move_index := 0 |};
        {| BoardStore.move_task := "T3"; BoardStore.move_from := "A";
           BoardStore.move_to := "A"; BoardStore.move_index := 0 |}]).
Proof.
  apply (applyMoves_invariant
           (Sample.board [Sample.T1; Sample.T2; Sample.T3] [])).
  split.
  - unfold listIdsDistinct. simpl. apply (bool_decide_unpack _). vm_compute.
    exact I.
  - unfold taskIdsDistinct. simpl. apply (bool_decide_unpack _). vm_compute.
    exact I.
Defined.

(** C6. When the task T is the first of the list A, moving it to index
    0 of another list B leaves A with the tasks that followed T, in
    their order, puts T in front of the tasks B had, in their order,
    and leaves every other list as it was.  On the board of the
    specification, [A = [T1; T2; T3]] and [B = []], moving T2 to B at
    index 0 gives [A = [T1; T3]] and [B = [T2]]. *)
Theorem optimisticMoveTask_front_to_front :
  (∀ (b : Board.t) (A B : string) (source destination : BoardList.t)
     (T : Task.t) (rest : list Task.t),
     find (isList A) (Board.lists b) = Some source →
     find (isList B) (Board.lists b) = Some destination →
     A ≠ B →
     BoardList.tasks source = T :: rest →
     find (isList A)
       (Board.lists (BoardStore.optimisticMoveTask b (Task.id T) A B 0))
       = Some (BoardList.with_tasks source rest) ∧
     find (isList B)
       (Board.lists (BoardStore.optimisticMoveTask b (Task.id T) A B 0))
       = Some (BoardList.with_tasks destination
                 (T :: BoardList.tasks destination)) ∧
     (∀ C, C ≠ A → C ≠ B →
        find (isList C)
          (Board.lists (BoardStore.optimisticMoveTask b (Task.id T) A B 0))
        = find (isList C) (Board.lists b))) ∧
  BoardStore.optimisticMoveTask
    (Sample.board [Sample.T1; Sample.T2; Sample.T3] []) "T2" "A" "B" 0
  = Sample.board [Sample.T1; Sample.T3] [Sample.T2].
Proof.
  split; [|reflexivity].
  intros b A B source destination T rest Hsrc Hdst Hne Htasks.
  assert (find (isTask (Task.id T)) (BoardList.tasks source) = Some T) as HT.
  { rewrite Htasks. simpl.
    by rewrite (proj2 (isTask_true (Task.id T) T) eq_refl). }
  destruct (optimisticMoveTask_cases b (Task.id T) A B 0)
    as [(s & d & t & Hs & Hd & Ht & _ & ->)|
        [[Hs|[Hd|(s & Hs & Ht)]] _]]; try congruence.
  assert (s = source) as -> by congruence.
  assert (t = T) as -> by congruence. clear Hs Hd Ht d.
  pose proof (find_isList_id _ _ _ Hsrc) as [HidA _].
  pose proof (find_isList_id _ _ _ Hdst) as [HidB _].
  simpl.
  rewrite !find_isList_map by (intros l; apply moveInList_id).
  rewrite Hsrc, Hdst. simpl. split; [|split].
  - f_equal. apply list_eq_by_fields; [by rewrite moveInList_id|].
    rewrite moveInList_tasks.
    rewrite (proj2 (isList_true A source) HidA).
    rewrite (proj2 (isList_false B source)) by congruence.
    rewrite Htasks. simpl.
    by rewrite (proj2 (isTask_true (Task.id T) T) eq_refl).
  - f_equal. apply list_eq_by_fields; [by rewrite moveInList_id|].
    rewrite moveInList_tasks.
    rewrite (proj2 (isList_true B destination) HidB).
    rewrite (proj2 (isList_false A destination)) by congruence.
    simpl. apply insertAt_front.
  - intros C HCA HCB.
    rewrite find_isList_map by (intros l; apply moveInList_id).
    destruct (find (isList C) (Board.lists b)) as [l|] eqn:Hl; [|done].
    simpl. f_equal. apply find_isList_id in Hl as [HidC _].
    apply list_eq_by_fields; [by rewrite moveInList_id|].
    rewrite moveInList_tasks.
    rewrite (proj2 (isList_false A l)) by congruence.
    by rewrite (proj2 (isList_false B l)) by congruence.
Qed.

(** [optimisticMoveTask_front_to_front] when T1, the first task of A,
    goes in front of T3 in B. *)
Lemma optimisticMoveTask_front_to_front_witness :
  find (isList "B")
    (Board.lists
       (BoardStore.optimisticMoveTask
          (Sample.board [Sample.T1; Sample.T2] [Sample.T3]) "T1" "A" "B" 0))
  = Some (BoardList.mk "B" [Sample.T1; Sample.T3]).
Proof.
  apply (proj1 optimisticMoveTask_front_to_front
           (Sample.board [Sample.T1; Sample.T2] [Sample.T3]) "A" "B"
           (BoardList.mk "A" [Sample.T1; Sample.T2])
           (BoardList.mk "B" [Sample.T3]) Sample.T1 [Sample.T2]);
    try reflexivity.
  discriminate.
Defined.

Section Idempotence.

Implicit Types (b : Board.t) (l : BoardList.t) (ls : list BoardList.t)
  (t : Task.t) (taskId fromListId toListId overId : string) (i : Z).

Lemma with_lists_same b : Board.with_lists b (Board.lists b) = b.
Proof. by destruct b. Qed.

(** With distinct task ids, lists of different ids share no task id. *)
Lemma taskIds_apart ls l1 l2 t1 t2 :
  NoDup (map Task.id (allTasks ls)) → l1 ∈ ls → l2 ∈ ls →
  BoardList.id l1 ≠ BoardList.id l2 →
  t1 ∈ BoardList.tasks l1 → t2 ∈ BoardList.tasks l2 →
  Task.id t1 ≠ Task.id t2.
Proof.
  intros Hnd (n & Hn)%list_elem_of_lookup (m & Hm)%list_elem_of_lookup
    Hne Ht1 Ht2 Hid.
  assert (n = m) as -> by (by eapply (taskIds_one_list ls n m l1 l2 t1 t2)).
  congruence.
Qed.

(** A move to a list where the task already sits as the move would put
    it changes nothing. *)
Lemma optimisticMoveTask_settled b t toListId i :
  is_Some (find (isList toListId) (Board.lists b)) →
  (∀ l, l ∈ Board.lists b → BoardList.id l = toListId →
        ∃ others, BoardList.tasks l = BoardStore.insertAt i t others ∧
                  ∀ x, x ∈ others → Task.id x ≠ Task.id t) →
  BoardStore.optimisticMoveTask b (Task.id t) toListId toListId i = b.
Proof.
  intros [d Hd] Hsettled. unfold BoardStore.optimisticMoveTask. rewrite Hd.
  pose proof (find_isList_id _ _ _ Hd) as [Hid Hin].
  destruct (Hsettled d Hin Hid) as (others & Htasks & Hothers).
  rewrite Htasks, (find_insertAt i t others Hothers).
  rewrite map_unchanged; [apply with_lists_same|].
  intros l Hl. apply list_eq_by_fields; [apply moveInList_id|].
  rewrite moveInList_tasks. destruct (isList toListId l) eqn:Hto; [|done].
  apply isList_true in Hto.
  destruct (Hsettled l Hl Hto) as (others' & -> & Hothers').
  by rewrite removeTask_insertAt.
Qed.

(** After a move that took place, the task id is found in lists of the
    destination id only. *)
Lemma moved_task_in_destination ls source t fromListId toListId i l x :
  NoDup (map Task.id (allTasks ls)) →
  find (isList fromListId) ls = Some source →
  find (isTask (Task.id t)) (BoardList.tasks source) = Some t →
  l ∈ map (BoardStore.moveInList t fromListId toListId i) ls →
  x ∈ BoardList.tasks l → Task.id x = Task.id t →
  BoardList.id l = toListId.
Proof.
  intros Hnd Hsrc Ht Hl Hx Hid.
  change (map ?f ls) with (f <$> ls) in Hl.
  apply list_elem_of_fmap in Hl as (l0 & -> & Hl0).
  rewrite moveInList_id. rewrite moveInList_tasks in Hx.
  destruct (isList toListId l0) eqn:Hto; [by apply isList_true|].
  exfalso. simpl in Hx.
  destruct (isList fromListId l0) eqn:Hfrom.
  - by apply (removeTask_gone (Task.id t) (BoardList.tasks l0)
                (taskIds_list_distinct ls l0 Hnd Hl0) x Hx).
  - apply find_isList_id in Hsrc as [Hsid Hsin].
    apply find_some in Ht as [Htin _]. apply list_elem_of_In in Htin.
    apply isList_false in Hfrom.
    apply (taskIds_apart ls l0 source x t Hnd Hl0 Hsin); [congruence|done..].
Qed.

(** The optimistic move repeated with the same four arguments. *)
Lemma optimisticMoveTask_idempotent b taskId fromListId toListId i :
  taskIdsDistinct b →
  BoardStore.optimisticMoveTask
    (BoardStore.optimisticMoveTask b taskId fromListId toListId i)
    taskId fromListId toListId i
  = BoardStore.optimisticMoveTask b taskId fromListId toListId i.
Proof.
  intros Hnd.
  destruct (optimisticMoveTask_cases b taskId fromListId toListId i)
    as [(source & destination & t & Hsrc & Hdst & Ht & Hid & Hmove)|[_ Hsame]];
    [|by rewrite !Hsame].
  rewrite Hmove. subst taskId.
  pose proof (find_isList_id _ _ _ Hsrc) as [Hsid Hsin].
  destruct (String.eqb_spec fromListId toListId) as [->|Hne].
  - apply optimisticMoveTask_settled; simpl.
    + rewrite find_isList_map by (intros l; apply moveInList_id).
      by rewrite Hdst.
    + intros l Hl Hlid. change (map ?f ?x) with (f <$> x) in Hl.
      apply list_elem_of_fmap in Hl as (l0 & -> & Hl0).
      rewrite moveInList_id in Hlid. rewrite moveInList_tasks.
      rewrite (proj2 (isList_true toListId l0) Hlid).
      eexists. split; [done|].
      apply removeTask_gone. by apply (taskIds_list_distinct _ l0 Hnd).
  - unfold BoardStore.optimisticMoveTask at 1. simpl.
    rewrite !find_isList_map by (intros l; apply moveInList_id).
    rewrite Hsrc, Hdst. simpl. rewrite moveInList_tasks.
    rewrite (proj2 (isList_true fromListId source) Hsid).
    rewrite (proj2 (isList_false toListId source)) by congruence.
    simpl.
    assert (find (isTask (Task.id t))
              (BoardStore.removeTask (Task.id t) (BoardList.tasks source))
            = None) as ->; [|done].
    apply find_isTask_none, removeTask_gone.
    by apply (taskIds_list_distinct _ source Hnd).
Qed.

(** After a move across lists that took place, the same move from the
    destination list changes nothing. *)
Lemma optimisticMoveTask_again b source destination t fromListId toListId i :
  taskIdsDistinct b →
  find (isList fromListId) (Board.lists b) = Some source →
  find (isList toListId) (Board.lists b) = Some destination →
  find (isTask (Task.id t)) (BoardList.tasks source) = Some t →
  fromListId ≠ toListId →
  BoardStore.optimisticMoveTask
    (Board.with_lists b
       (map (BoardStore.moveInList t fromListId toListId i) (Board.lists b)))
    (Task.id t) toListId toListId i
  = Board.with_lists b
      (map (BoardStore.moveInList t fromListId toListId i) (Board.lists b)).
Proof.
  intros Hnd Hsrc Hdst Ht Hne.
  pose proof (find_isList_id _ _ _ Hsrc) as [Hsid Hsin].
  apply optimisticMoveTask_settled; simpl.
  - rewrite find_isList_map by (intros l; apply moveInList_id).
    by rewrite Hdst.
  - intros l Hl Hlid. change (map ?f ?x) with (f <$> x) in Hl.
    apply list_elem_of_fmap in Hl as (l0 & -> & Hl0).
    rewrite moveInList_id in Hlid. rewrite moveInList_tasks.
    rewrite (proj2 (isList_true toListId l0) Hlid).
    rewrite (proj2 (isList_false fromListId l0)) by congruence.
    eexists. split; [done|]. intros x Hx. simpl in Hx.
    apply find_some in Ht as [Htin _]. apply list_elem_of_In in Htin.
    apply (taskIds_apart _ l0 source x t Hnd Hl0 Hsin); [congruence|done..].
Qed.

Lemma findListContainingTask_some b taskId l :
  findListContainingTask (Some b) taskId = Some l →
  l ∈ Board.lists b ∧ ∃ x, x ∈ BoardList.tasks l ∧ Task.id x = taskId.
Proof.
  simpl. intros [Hin Hex]%find_some. split; [by apply list_elem_of_In|].
  by apply existsb_isTask.
Qed.

(** The "task moved" event applied twice. *)
Lemma applyTaskMoved_idempotent b taskId toListId i :
  taskIdsDistinct b →
  BoardStore.applyTaskMoved
    (BoardStore.applyTaskMoved b taskId toListId i) taskId toListId i
  = BoardStore.applyTaskMoved b taskId toListId i.
Proof.
  intros Hnd. unfold BoardStore.applyTaskMoved at 2 3.
  destruct (findListContainingTask (Some b) taskId) as [holder|] eqn:Hholder.
  2:{ unfold BoardStore.applyTaskMoved. by rewrite Hholder. }
  destruct (optimisticMoveTask_cases b taskId (BoardList.id holder) toListId i)
    as [(source & destination & t & Hsrc & Hdst & Ht & Hid & Hmove)|[_ Hsame]].
  2:{ rewrite Hsame. unfold BoardStore.applyTaskMoved. by rewrite Hholder. }
  unfold BoardStore.applyTaskMoved.
  destruct (findListContainingTask
              (Some (BoardStore.optimisticMoveTask b taskId
                       (BoardList.id holder) toListId i)) taskId)
    as [holder'|] eqn:Hholder'; [|done].
  apply findListContainingTask_some in Hholder' as [Hin' (x & Hx & Hxid)].
  subst taskId. rewrite Hmove in Hin' |- *. simpl in Hin'.
  rewrite (moved_task_in_destination _ source t _ toListId i holder' x
             Hnd Hsrc Ht Hin' Hx Hxid).
  destruct (String.eqb_spec (BoardList.id holder) toListId) as [Heq|Hne].
  - rewrite <- Hmove, <- Heq. rewrite Heq at 2.
    rewrite <- Heq. by apply optimisticMoveTask_idempotent.
  - by eapply optimisticMoveTask_again.
Qed.

Lemma find_map_pred (P : BoardList.t → bool) (f : BoardList.t → BoardList.t) ls :
  (∀ l, P (f l) = P l) → find P (map f ls) = f <$> find P ls.
Proof.
  intros HP. induction ls as [|l ls IH]; simpl; [done|].
  rewrite HP. by destruct (P l).
Qed.

(** A move does not change which lists have a task of another id. *)
Lemma existsb_moveInList t fromListId toListId i overId l :
  overId ≠ Task.id t →
  existsb (isTask overId)
    (BoardList.tasks (BoardStore.moveInList t fromListId toListId i l))
  = existsb (isTask overId) (BoardList.tasks l).
Proof.
  intros Hne. apply eq_true_iff_eq. rewrite !existsb_isTask.
  rewrite moveInList_tasks. split.
  - intros (x & Hx & Hid). exists x. split; [|done].
    destruct (isList toListId l); simpl in Hx.
    + apply elem_of_insertAt in Hx as [->|Hx]; [congruence|].
      destruct (isList fromListId l); [by eapply removeTask_subset|done].
    + destruct (isList fromListId l); [by eapply removeTask_subset|done].
  - intros (x & Hx & Hid). exists x. split; [|done].
    assert (x ∈ (if isList fromListId l
                 then BoardStore.removeTask (Task.id t) else id)
                  (BoardList.tasks l)) as Hx'.
    { destruct (isList fromListId l); [|done].
      apply removeTask_keeps; [done|congruence]. }
    destruct (isList toListId l); simpl; [|done].
    apply elem_of_insertAt. by right.
Qed.

(** After a move, a hovered id that is not the moved task's resolves to
    a target in the list of the same id as before. *)
Lemma resolveDropTarget_moved b t fromListId toListId i overId target :
  resolveDropTarget (Some b) overId = Some target →
  is_Some (find (isList overId) (Board.lists b)) ∨ overId ≠ Task.id t →
  ∃ target',
    resolveDropTarget
      (Some (Board.with_lists b
               (map (BoardStore.moveInList t fromListId toListId i)
                    (Board.lists b)))) overId = Some target' ∧
    listId target' = listId target.
Proof.
  simpl. rewrite find_isList_map by (intros l; apply moveInList_id).
  destruct (find (isList overId) (Board.lists b)) as [l|] eqn:Hl; simpl.
  - intros [= <-] _. eexists. split; [done|]. simpl. apply moveInList_id.
  - intros Htgt [[? [=]]|Hne]. clear Hl.
    rewrite resolveDropTarget_tasks_find in Htgt |- *.
    rewrite (find_map_pred
               (λ l, existsb (isTask overId) (BoardList.tasks l)))
      by (intros l'; by apply existsb_moveInList).
    destruct (find _ (Board.lists b)) as [l'|]; [|done]. simpl.
    injection Htgt as <-. eexists. split; [done|]. simpl. apply moveInList_id.
Qed.

Lemma set_currentBoard_same (p : Page) b :
  currentBoard p = Some b → set_currentBoard (Some b) p = p.
Proof. destruct p. simpl. by intros ->. Qed.

(** The drag-over event repeated on the page it left. *)
Lemma handleDragOver_idempotent (event : DragEvent) (p : Page) b :
  currentBoard p = Some b → taskIdsDistinct b →
  run (handleDragOver BoardStore.optimisticMoveTask event)
    (run (handleDragOver BoardStore.optimisticMoveTask event) p)
  = run (handleDragOver BoardStore.optimisticMoveTask event) p.
Proof.
  intros Hb Hnd.
  rewrite (handleDragOver_unfold _ event p). rewrite Hb.
  destruct (over event) as [overId|] eqn:Hover.
  2:{ rewrite handleDragOver_unfold. by rewrite Hover. }
  destruct (findListContainingTask (Some b) (active event))
    as [activeList|] eqn:Hact.
  2:{ rewrite handleDragOver_unfold. by rewrite Hover, Hb, Hact. }
  destruct (resolveDropTarget (Some b) overId) as [target|] eqn:Htgt.
  2:{ rewrite handleDragOver_unfold. by rewrite Hover, Hb, Hact, Htgt. }
  destruct (String.eqb_spec (BoardList.id activeList) (listId target))
    as [Heq|Hne].
  { rewrite handleDragOver_unfold. rewrite Hover, Hb, Hact, Htgt.
    by rewrite (proj2 (String.eqb_eq _ _) Heq). }
  destruct (optimisticMoveTask_cases b (active event)
              (BoardList.id activeList) (listId target) (index target))
    as [(source & destination & t & Hsrc & Hdst & Ht & Hid & Hmove)|[_ Hsame]].
  2:{ rewrite Hsame. rewrite (set_currentBoard_same p b Hb).
      rewrite handleDragOver_unfold. rewrite Hover, Hb, Hact, Htgt.
      rewrite (proj2 (String.eqb_neq _ _) Hne).
      by rewrite Hsame, (set_currentBoard_same p b Hb). }
  rewrite handleDragOver_unfold.
  change (currentBoard (set_currentBoard ?x p)) with x. rewrite Hover.
  destruct (resolveDropTarget_moved b t (BoardList.id activeList)
              (listId target) (index target) overId target Htgt)
    as (target' & Htgt' & Hlid).
  { destruct (find (isList overId) (Board.lists b)) eqn:Hl; [by left; eexists|].
    right. intros ->. apply Hne.
    revert Htgt. simpl. rewrite Hl, resolveDropTarget_tasks_find.
    simpl in Hact. rewrite Hid, Hact. by intros [= <-]. }
  rewrite Hmove, Htgt'.
  destruct (findListContainingTask (Some (Board.with_lists _ _)) (active event))
    as [activeList'|] eqn:Hact'; [|done].
  apply findListContainingTask_some in Hact' as [Hin' (x & Hx & Hxid)].
  simpl in Hin'. rewrite <- Hid in Hxid.
  rewrite <- Hid in Ht.
  rewrite (moved_task_in_destination _ source t _ (listId target)
             (index target) activeList' x Hnd Hsrc Ht Hin' Hx Hxid).
  by rewrite Hlid, String.eqb_refl.
Qed.

(** The "task moved" event for the place the task already has. *)
Lemma applyTaskMoved_in_place b taskId toListId i :
  wellFormed b →
  taskPlace (Some b) taskId = Some (toListId, i) →
  BoardStore.applyTaskMoved b taskId toListId i = b.
Proof.
  intros [Hlists Htasks]. unfold taskPlace, BoardStore.applyTaskMoved.
  destruct (findListContainingTask (Some b) taskId) as [holder|] eqn:Hholder;
    [|done].
  intros [= Hid Hidx].
  apply findListContainingTask_some in Hholder as [Hin (x & Hx & Hxid)].
  pose proof (taskIds_list_distinct _ holder Htasks Hin) as Hnd.
  destruct (find (isTask taskId) (BoardList.tasks holder)) as [t|] eqn:Ht.
  2:{ by destruct (proj1 (find_isTask_none _ _) Ht x Hx). }
  apply find_isTask_split in Ht as (pre & post & Hsplit & Htid & _ & Hrem & Hpre).
  rewrite Hid, <- Htid. apply optimisticMoveTask_settled.
  - rewrite <- Hid. rewrite (find_isList_distinct _ holder Hlists Hin).
    by eexists.
  - intros l Hl Hlid. assert (l = holder) as ->.
    { pose proof (find_isList_distinct _ l Hlists Hl) as Hfl.
      rewrite Hlid, <- Hid in Hfl.
      rewrite (find_isList_distinct _ holder Hlists Hin) in Hfl. congruence. }
    exists (pre ++ post). split.
    + rewrite Hsplit at 1. rewrite <- Hidx, Hpre. by rewrite insertAt_split.
    + rewrite <- Hrem, Htid. by apply removeTask_gone.
Qed.

End Idempotence.

(** C7. On a board whose task ids are distinct, applying the same move
    twice gives the board that applying it once gives: for the "task
    moved" event keyed by task, destination list and destination
    position, for [optimisticMoveTask] called again with the same
    arguments, for the event that repeats a move the client already
    made optimistically, and for the drag-over event repeated by the
    page; and, when the list ids are distinct too, the event for the
    list and index the task already has leaves the board as it is. *)
Theorem move_idempotent
    (b : Board.t) (taskId toListId : string) (i : Z) :
  taskIdsDistinct b →
  BoardStore.applyTaskMoved
    (BoardStore.applyTaskMoved b taskId toListId i) taskId toListId i
    = BoardStore.applyTaskMoved b taskId toListId i ∧
  (∀ fromListId,
     BoardStore.optimisticMoveTask
       (BoardStore.optimisticMoveTask b taskId fromListId toListId i)
       taskId fromListId toListId i
     = BoardStore.optimisticMoveTask b taskId fromListId toListId i) ∧
  (∀ holder,
     findListContainingTask (Some b) taskId = Some holder →
     BoardStore.applyTaskMoved
       (BoardStore.optimisticMoveTask b taskId (BoardList.id holder) toListId i)
       taskId toListId i
     = BoardStore.optimisticMoveTask b taskId (BoardList.id holder) toListId i) ∧
  (∀ (event : DragEvent) (p : Page),
     currentBoard p = Some b →
     run (handleDragOver BoardStore.optimisticMoveTask event)
       (run (handleDragOver BoardStore.optimisticMoveTask event) p)
     = run (handleDragOver BoardStore.optimisticMoveTask event) p) ∧
  (listIdsDistinct b →
   taskPlace (Some b) taskId = Some (toListId, i) →
   BoardStore.applyTaskMoved b taskId toListId i = b).
Proof.
  intros Hnd. split; [|split; [|split; [|split]]].
  - by apply applyTaskMoved_idempotent.
  - intros fromListId. by apply optimisticMoveTask_idempotent.
  - intros holder Hholder.
    pose proof (applyTaskMoved_idempotent b taskId toListId i Hnd) as H.
    unfold BoardStore.applyTaskMoved at 2 3 in H. by rewrite Hholder in H.
  - intros event p Hb. by eapply handleDragOver_idempotent.
  - intros Hlists Hplace. by apply applyTaskMoved_in_place.
Qed.

(** [move_idempotent] on the sample board: T2 moved to the end of the
    list B twice. *)
Lemma move_idempotent_witness :
  BoardStore.applyTaskMoved
    (BoardStore.applyTaskMoved
       (Sample.board [Sample.T1; Sample.T2] [Sample.T3]) "T2" "B" 5)
    "T2" "B" 5
  = BoardStore.applyTaskMoved
      (Sample.board [Sample.T1; Sample.T2] [Sample.T3]) "T2" "B" 5.
Proof.
  refine (proj1 (move_idempotent
                   (Sample.board [Sample.T1; Sample.T2] [Sample.T3])
                   "T2" "B" 5 _)).
  unfold taskIdsDistinct. simpl. apply (bool_decide_unpack _). vm_compute.
  exact I.
Defined.

(* ================================================================== *)
(** ** More facts about the page's helpers and handlers *)
(* ================================================================== *)

Lemma find_first {A : Type} (P : A → bool) (l : list A) (x : A) :
  find P l = Some x →
  ∃ n : nat, l !! n = Some x ∧ P x = true ∧
             ∀ (m : nat) y, (m < n)%nat → l !! m = Some y → P y = false.
Proof.
  induction l as [|a l IH]; simpl; [done|].
  destruct (P a) eqn:Ha.
  - intros [= ->]. exists 0%nat. repeat split; try done. intros m y Hm. lia.
  - intros (n & Hn & Hx & Hmin)%IH. exists (S n). repeat split; try done.
    intros [|m] y Hm Hy; simpl in Hy; [congruence|].
    apply (Hmin m); [lia|done].
Qed.

Lemma find_existsb {A : Type} (P : A → bool) (l : list A) :
  find P l = None ↔ existsb P l = false.
Proof.
  induction l as [|a l IH]; simpl; [done|].
  destruct (P a); simpl; [split; discriminate|done].
Qed.

(** [findListContainingTask] answers the first list of the board that
    has a task of that id: a list of the board, with such a task, that
    no list with such a task precedes; it answers [null] exactly when
    the board has no task of that id, and always without a board. *)
Theorem findListContainingTask_first (b : Board.t) (taskId : string) :
  findListContainingTask None taskId = None ∧
  (∀ l, findListContainingTask (Some b) taskId = Some l →
        ∃ (n : nat) t,
          Board.lists b !! n = Some l ∧
          t ∈ BoardList.tasks l ∧ Task.id t = taskId ∧
          ∀ (m : nat) l' t', (m < n)%nat → Board.lists b !! m = Some l' →
                             t' ∈ BoardList.tasks l' → Task.id t' ≠ taskId) ∧
  (findListContainingTask (Some b) taskId = None ↔ knownTask b taskId = false).
Proof.
  split; [done|]. split; [|apply findListContainingTask_none].
  simpl. intros l (n & Hn & Hex & Hmin)%find_first.
  apply existsb_isTask in Hex as (t & Ht & Hid).
  exists n, t. repeat split; try done.
  intros m l' t' Hm Hl' Ht' Hid'.
  specialize (Hmin m l' Hm Hl'). simpl in Hmin.
  assert (existsb (isTask taskId) (BoardList.tasks l') = true); [|congruence].
  apply existsb_isTask. by exists t'.
Qed.

(** The target [resolveDropTarget] answers is in a list of the board,
    at an index from 0 to the number of its tasks; the index is past
    the last task only when the hovered id is the list's own id. *)
Theorem resolveDropTarget_in_bounds
    (cb : option Board.t) (overId : string) (target : DropTarget) :
  resolveDropTarget cb overId = Some target →
  ∃ b l,
    cb = Some b ∧ l ∈ Board.lists b ∧ BoardList.id l = listId target ∧
    0 ≤ index target ≤ Z.of_nat (length (BoardList.tasks l)) ∧
    (index target = Z.of_nat (length (BoardList.tasks l)) →
     listId target = overId).
Proof.
  destruct cb as [b|]; [|done]. simpl.
  destruct (find (isList overId) (Board.lists b)) as [l|] eqn:Hl.
  - intros [= <-]. apply find_isList_id in Hl as [Hid Hin].
    exists b, l. simpl. repeat split; try done. lia.
  - rewrite resolveDropTarget_tasks_find. clear Hl.
    destruct (find _ (Board.lists b)) as [l'|] eqn:Hl'; [|done].
    intros [= <-]. apply find_some in Hl' as [Hin Hex]. simpl in Hex.
    apply list_elem_of_In in Hin. exists b, l'. simpl.
    pose proof (findIndex_range (isTask overId) (BoardList.tasks l')) as [Hn|Hr].
    { apply findIndex_none in Hn. congruence. }
    repeat split; try done; lia.
Qed.

(** [resolveDropTarget_in_bounds] for the task id ["T2"] on the sample
    board. *)
Lemma resolveDropTarget_in_bounds_witness :
  ∃ b l,
    Some (Sample.board [Sample.T1; Sample.T2; Sample.T3] []) = Some b ∧
    l ∈ Board.lists b ∧ BoardList.id l = "A" ∧
    0 ≤ 1 ≤ Z.of_nat (length (BoardList.tasks l)) ∧
    (1 = Z.of_nat (length (BoardList.tasks l)) → "A" = "T2").
Proof.
  apply (resolveDropTarget_in_bounds
           (Some (Sample.board [Sample.T1; Sample.T2; Sample.T3] []))
           "T2" {| listId := "A"; index := 1 |}).
  reflexivity.
Defined.

(** The loop of [handleDragStart] in one piece. *)
Lemma handleDragStart_lists_unfold
    (taskId : string) (ls : list BoardList.t) (p : Page) :
  run (handleDragStart_lists taskId ls) p =
  match find (λ l, existsb (isTask taskId) (BoardList.tasks l)) ls with
  | Some l =>
      match find (isTask taskId) (BoardList.tasks l) with
      | Some task =>
          set_dragOriginRef
            (Some {| origin_listId := BoardList.id l;
                     origin_position :=
                       findIndex (isTask taskId) (BoardList.tasks l) |})
            (set_activeTask (Some task) p)
      | None => p
      end
  | None => p
  end.
Proof.
  induction ls as [|l ls IH]; simpl; [done|].
  destruct (find (isTask taskId) (BoardList.tasks l)) as [task|] eqn:Ht.
  - assert (existsb (isTask taskId) (BoardList.tasks l) = true) as ->.
    { apply not_false_iff_true. intros Hex%find_existsb. congruence. }
    by rewrite Ht.
  - apply find_existsb in Ht. rewrite Ht. apply IH.
Qed.

(** [handleDragStart] in one piece. *)
Lemma handleDragStart_unfold (event : DragEvent) (p : Page) :
  run (handleDragStart event) p =
  match findListContainingTask (currentBoard p) (active event) with
  | Some l =>
      match find (isTask (active event)) (BoardList.tasks l) with
      | Some task =>
          set_dragOriginRef
            (Some {| origin_listId := BoardList.id l;
                     origin_position :=
                       findIndex (isTask (active event)) (BoardList.tasks l) |})
            (set_activeTask (Some task) p)
      | None => p
      end
  | None => p
  end.
Proof.
  assert (run (handleDragStart event) p =
          match currentBoard p with
          | Some b =>
              run (handleDragStart_lists (active event) (Board.lists b)) p
          | None => p
          end) as ->.
  { unfold handleDragStart. handler_unfold. by destruct (currentBoard p). }
  destruct (currentBoard p) as [b|]; [|done].
  apply handleDragStart_lists_unfold.
Qed.

Lemma handleDragStart_frame (event : DragEvent) (p : Page) :
  currentBoard (run (handleDragStart event) p) = currentBoard p ∧
  effects (run (handleDragStart event) p) = effects p.
Proof. rewrite handleDragStart_unfold. by repeat case_match. Qed.

(** [handleDragStart] leaves the board and the effects alone.  When the
    task is on the board it records the task's place as the origin and
    the task itself, the first of that id in its list, as the active
    task; when it is not (or no board is loaded) the page stays as it
    is, a former origin included. *)
Theorem handleDragStart_records (event : DragEvent) (p : Page) :
  currentBoard (run (handleDragStart event) p) = currentBoard p ∧
  effects (run (handleDragStart event) p) = effects p ∧
  (∀ place,
     taskPlace (currentBoard p) (active event) = Some place →
     originPlace <$> dragOriginRef (run (handleDragStart event) p)
       = Some place ∧
     ∃ l task,
       findListContainingTask (currentBoard p) (active event) = Some l ∧
       find (isTask (active event)) (BoardList.tasks l) = Some task ∧
       Task.id task = active event ∧
       activeTask (run (handleDragStart event) p) = Some task) ∧
  (taskPlace (currentBoard p) (active event) = None →
   run (handleDragStart event) p = p).
Proof.
  destruct (handleDragStart_frame event p) as [Hb He].
  split; [done|]. split; [done|].
  rewrite handleDragStart_unfold. unfold taskPlace.
  destruct (findListContainingTask (currentBoard p) (active event))
    as [l|] eqn:Hl; [|done].
  assert (existsb (isTask (active event)) (BoardList.tasks l) = true) as Hex.
  { destruct (currentBoard p); [|done].
    by apply find_some in Hl as [_ Hex]. }
  destruct (find (isTask (active event)) (BoardList.tasks l)) as [task|] eqn:Ht.
  2:{ apply find_existsb in Ht. congruence. }
  split; [|done].
  intros place [= <-]. split; [done|]. exists l, task. repeat split; try done.
  apply find_some in Ht as [_ Ht]. by apply isTask_true.
Qed.

Section PageExtras.

Variable boardId : string.
Variable optimisticMoveTask : Board.t → string → string → string → Z → Board.t.
Variable moveTask : string → string → MovePayload → bool.

#[local] Abbreviation dragOver := (handleDragOver optimisticMoveTask).
#[local] Abbreviation dragEnd :=
  (handleDragEnd boardId optimisticMoveTask moveTask).

(** The three shapes of what a drop issues. *)
Lemma handleDragEnd_shape (event : DragEvent) (p : Page) :
  activeTask (run (dragEnd event) p) = None ∧
  dragOriginRef (run (dragEnd event) p) = None ∧
  (issued p (run (dragEnd event) p) = [] ∨
   ∃ place,
     taskPlace (currentBoard p) (active event) = Some place ∧
     ((moveTask boardId (active event)
         {| list_id := place.1; position := place.2 |} = true ∧
       issued p (run (dragEnd event) p) =
         [MoveTask boardId (active event)
            {| list_id := place.1; position := place.2 |}]) ∨
      (moveTask boardId (active event)
         {| list_id := place.1; position := place.2 |} = false ∧
       issued p (run (dragEnd event) p) =
         [MoveTask boardId (active event)
            {| list_id := place.1; position := place.2 |};
          AddToast "Failed to move task" "error";
          FetchBoard boardId]))).
Proof.
  pose proof (handleDragEnd_outcome boardId optimisticMoveTask moveTask event p)
    as H.
  assert (run (dragEnd event) p = dragCleared p →
          activeTask (run (dragEnd event) p) = None ∧
          dragOriginRef (run (dragEnd event) p) = None ∧
          issued p (run (dragEnd event) p) = []) as Hclear.
  { intros ->. repeat split. apply issued_app. by rewrite app_nil_r. }
  destruct (over event) as [overId|]; [|by destruct (Hclear H) as (? & ? & ?); auto].
  destruct (currentBoard p) as [b|];
    [|by destruct (Hclear H) as (? & ? & ?); auto].
  destruct (dragOriginRef p) as [origin|];
    [|by destruct (Hclear H) as (? & ? & ?); auto].
  destruct (findListContainingTask (Some b) (active event));
    [|by destruct (Hclear H) as (? & ? & ?); auto].
  destruct (resolveDropTarget (Some b) overId);
    [|by destruct (Hclear H) as (? & ? & ?); auto].
  clear Hclear. destruct H as (Ha & Ho & He).
  split; [done|]. split; [done|].
  rewrite (issued_app _ _ _ He).
  destruct (taskPlace _ _) as [[finalListId finalPosition]|]; [|by left].
  destruct (_ && _); [by left|]. right. exists (finalListId, finalPosition).
  split; [done|]. simpl.
  destruct (moveTask _ _ _); [left|right]; done.
Qed.

(** Whatever a drop does, [handleDragEnd] ends with the overlay and the
    origin cleared, and it has issued nothing, or one move request for
    the place the task has on the board the handler started from (the
    board of its render, as the drag-over moves left it), or that
    request followed by the error toast and the re-fetch when the
    request was rejected: never a second request, never a re-fetch
    without a rejected request. *)
Theorem handleDragEnd_effects (event : DragEvent) (p : Page) :
  activeTask (run (dragEnd event) p) = None ∧
  dragOriginRef (run (dragEnd event) p) = None ∧
  (length (List.filter isMoveTask (issued p (run (dragEnd event) p))) ≤ 1)%nat ∧
  (∀ id, FetchBoard id ∈ issued p (run (dragEnd event) p) →
         id = boardId ∧
         ∃ payload,
           issued p (run (dragEnd event) p) =
             [MoveTask boardId (active event) payload;
              AddToast "Failed to move task" "error"; FetchBoard boardId] ∧
           moveTask boardId (active event) payload = false) ∧
  (∀ bid taskId payload,
     MoveTask bid taskId payload ∈ issued p (run (dragEnd event) p) →
     bid = boardId ∧ taskId = active event ∧
     taskPlace (currentBoard p) (active event)
       = Some (list_id payload, position payload)).
Proof.
  destruct (handleDragEnd_shape event p)
    as (Ha & Ho & [->|(place & Hplace & [[Hok ->]|[Hrej ->]])]);
    (split; [done|]); (split; [done|]).
  - split; [simpl; lia|]. split.
    + by intros id ?%elem_of_nil.
    + by intros bid taskId payload ?%elem_of_nil.
  - split; [simpl; lia|]. split.
    + intros id [?|?%elem_of_nil]%elem_of_cons; done.
    + intros bid taskId payload [[= -> -> ->]|?%elem_of_nil]%elem_of_cons;
        [|done].
      by destruct place.
  - split; [simpl; lia|]. split.
    + intros id Hin. split; [|by eexists].
      apply elem_of_cons in Hin as [?|Hin]; [done|].
      apply elem_of_cons in Hin as [?|Hin]; [done|].
      apply elem_of_cons in Hin as [[= ->]|Hin]; [done|].
      by apply elem_of_nil in Hin.
    + intros bid taskId payload Hin.
      apply elem_of_cons in Hin as [[= -> -> ->]|Hin]; [by destruct place|].
      apply elem_of_cons in Hin as [?|Hin]; [done|].
      apply elem_of_cons in Hin as [?|Hin]; [done|].
      by apply elem_of_nil in Hin.
Qed.

(** [handleDragEnd] never takes the task to another list: it leaves
    the board as it is, or reorders the task within the list that has
    it, to the index of the drop target, which is then an index other
    than the task's. *)
Theorem handleDragEnd_reorders_within_list (event : DragEvent) (p : Page) :
  currentBoard (run (dragEnd event) p) = currentBoard p ∨
  ∃ b overId l target,
    currentBoard p = Some b ∧ over event = Some overId ∧
    findListContainingTask (Some b) (active event) = Some l ∧
    resolveDropTarget (Some b) overId = Some target ∧
    listId target = BoardList.id l ∧
    index target ≠ findIndex (isTask (active event)) (BoardList.tasks l) ∧
    currentBoard (run (dragEnd event) p) =
    Some (optimisticMoveTask b (active event)
            (BoardList.id l) (BoardList.id l) (index target)).
Proof.
  rewrite handleDragEnd_unfold.
  destruct (over event) as [overId|]; [|by left].
  destruct (currentBoard p) as [b|] eqn:Hb; [|left; exact Hb].
  destruct (dragOriginRef p) as [origin|]; [|left; exact Hb].
  destruct (findListContainingTask (Some b) (active event)) as [l|] eqn:Hl;
    [|left; exact Hb].
  destruct (resolveDropTarget (Some b) overId) as [target|] eqn:Htgt;
    [|left; exact Hb].
  cbv zeta.
  destruct (String.eqb_spec (BoardList.id l) (listId target)) as [Heq|Hne].
  - destruct (Z.eqb_spec (findIndex (isTask (active event)) (BoardList.tasks l))
                (index target)) as [Hidx|Hidx].
    + left. destruct (_ && _); [exact Hb|].
      rewrite (proj1 (persistFinal_issued _ _ _ _ _ _)). exact Hb.
    + right. exists b, overId, l, target. repeat split; try done.
      rewrite (proj1 (persistFinal_issued _ _ _ _ _ _)). simpl.
      by rewrite <- Heq.
  - left. rewrite (proj1 (persistFinal_issued _ _ _ _ _ _)). exact Hb.
Qed.

Lemma hover_fields (taskId : string) (overId : option string) (p : Page) :
  effects (hover optimisticMoveTask taskId p overId) = effects p ∧
  activeTask (hover optimisticMoveTask taskId p overId) = activeTask p ∧
  dragOriginRef (hover optimisticMoveTask taskId p overId) = dragOriginRef p.
Proof.
  unfold hover. rewrite handleDragOver_unfold. simpl.
  repeat case_match; done.
Qed.

Lemma hovers_fields (taskId : string) (hovers : list (option string)) (p : Page) :
  effects (foldl (hover optimisticMoveTask taskId) p hovers) = effects p ∧
  activeTask (foldl (hover optimisticMoveTask taskId) p hovers) = activeTask p ∧
  dragOriginRef (foldl (hover optimisticMoveTask taskId) p hovers)
    = dragOriginRef p.
Proof.
  revert p. induction hovers as [|o hovers IH]; intros p; [done|].
  simpl. destruct (IH (hover optimisticMoveTask taskId p o)) as (-> & -> & ->).
  apply hover_fields.
Qed.

(** Between the pick-up and the drop nothing is sent, however many
    elements the task hovers over, and the origin and the active task
    stay the ones [handleDragStart] recorded. *)
Theorem dragged_sends_nothing
    (taskId : string) (hovers : list (option string)) (p : Page) :
  effects (dragged optimisticMoveTask taskId hovers p) = effects p ∧
  activeTask (dragged optimisticMoveTask taskId hovers p) =
    activeTask (run (handleDragStart {| active := taskId; over := None |}) p) ∧
  dragOriginRef (dragged optimisticMoveTask taskId hovers p) =
    dragOriginRef (run (handleDragStart {| active := taskId; over := None |}) p).
Proof.
  unfold dragged.
  destruct (hovers_fields taskId hovers
              (run (handleDragStart {| active := taskId; over := None |}) p))
    as (-> & -> & ->).
  split; [|done].
  apply handleDragStart_frame.
Qed.

(** A task picked up and dropped on itself, with no hover in between:
    when the task is on the board and its id is not also the id of a
    list, the gesture sends nothing and leaves the board as it was; the
    overlay and the origin end cleared. *)
Theorem gesture_drop_in_place (taskId : string) (p : Page) (b : Board.t) :
  currentBoard p = Some b →
  knownTask b taskId = true →
  knownList b taskId = false →
  gesture boardId optimisticMoveTask moveTask taskId [] (Some taskId) p
  = dragCleared p.
Proof.
  intros Hb Htask Hlist.
  destruct (findListContainingTask (Some b) taskId) as [l|] eqn:Hl.
  2:{ apply findListContainingTask_none in Hl. congruence. }
  assert (existsb (isTask taskId) (BoardList.tasks l) = true) as Hex.
  { by apply find_some in Hl as [_ Hex]. }
  destruct (find (isTask taskId) (BoardList.tasks l)) as [task|] eqn:Ht.
  2:{ apply find_existsb in Ht. congruence. }
  assert (resolveDropTarget (Some b) taskId =
          Some {| listId := BoardList.id l;
                  index := findIndex (isTask taskId) (BoardList.tasks l) |})
    as Hres.
  { simpl. assert (find (isList taskId) (Board.lists b) = None) as ->.
    { apply find_existsb. exact Hlist. }
    rewrite resolveDropTarget_tasks_find. simpl in Hl. by rewrite Hl. }
  unfold gesture, dragged. cbn [foldl].
  rewrite handleDragStart_unfold. cbn [active]. rewrite Hb, Hl, Ht.
  rewrite handleDragEnd_unfold.
  cbn [active over currentBoard dragOriginRef set_dragOriginRef set_activeTask].
  rewrite Hb, Hl, Hres.
  cbn [listId index origin_listId origin_position].
  rewrite !String.eqb_refl, !Z.eqb_refl. done.
Qed.

(** A whole gesture, whatever the task hovers over and wherever it is
    dropped, sends at most one move request, and only for the dragged
    task on the page's board; it issues nothing at all when the task is
    released over nothing; it ends with the overlay and the origin
    cleared. *)
Theorem gesture_effects
    (taskId : string) (hovers : list (option string)) (drop : option string)
    (p : Page) :
  activeTask (gesture boardId optimisticMoveTask moveTask taskId hovers drop p)
    = None ∧
  dragOriginRef (gesture boardId optimisticMoveTask moveTask taskId hovers drop p)
    = None ∧
  (length
     (List.filter isMoveTask
        (issued p
           (gesture boardId optimisticMoveTask moveTask taskId hovers drop p)))
   ≤ 1)%nat ∧
  (∀ bid t payload,
     MoveTask bid t payload ∈
       issued p
         (gesture boardId optimisticMoveTask moveTask taskId hovers drop p) →
     bid = boardId ∧ t = taskId) ∧
  (drop = None →
   issued p (gesture boardId optimisticMoveTask moveTask taskId hovers drop p)
   = []).
Proof.
  unfold gesture.
  set (q := dragged optimisticMoveTask taskId hovers p).
  assert (effects q = effects p) as Hq.
  { unfold q, dragged.
    destruct (hovers_fields taskId hovers
                (run (handleDragStart {| active := taskId; over := None |}) p))
      as (-> & _ & _).
    apply handleDragStart_frame. }
  assert (∀ q', issued p q' = issued q q') as Hissued.
  { intros q'. unfold issued. by rewrite Hq. }
  rewrite !Hissued.
  destruct (handleDragEnd_shape {| active := taskId; over := drop |} q)
    as (Ha & Ho & Hshape).
  split; [done|]. split; [done|].
  split; [|split].
  - destruct Hshape as [->|(place & _ & [[_ ->]|[_ ->]])]; simpl; lia.
  - intros bid t payload Hin.
    destruct Hshape as [Hs|(place & _ & [[_ Hs]|[_ Hs]])]; rewrite Hs in Hin.
    + by apply elem_of_nil in Hin.
    + apply elem_of_cons in Hin as [[= -> -> ->]|Hin]; [done|].
      by apply elem_of_nil in Hin.
    + apply elem_of_cons in Hin as [[= -> -> ->]|Hin]; [done|].
      apply elem_of_cons in Hin as [?|Hin]; [done|].
      apply elem_of_cons in Hin as [?|Hin]; [done|].
      by apply elem_of_nil in Hin.
  - intros ->. apply issued_app. rewrite handleDragEnd_unfold. simpl.
    by rewrite app_nil_r.
Qed.

End PageExtras.

(** [gesture_drop_in_place] for T2 on the sample board. *)
Lemma gesture_drop_in_place_witness :
  gesture "board" BoardStore.optimisticMoveTask Sample.accept
    "T2" [] (Some "T2") (Sample.page [Sample.T1; Sample.T2; Sample.T3] [])
  = dragCleared (Sample.page [Sample.T1; Sample.T2; Sample.T3] []).
Proof.
  apply (gesture_drop_in_place "board" BoardStore.optimisticMoveTask
           Sample.accept "T2"
           (Sample.page [Sample.T1; Sample.T2; Sample.T3] [])
           (Sample.board [Sample.T1; Sample.T2; Sample.T3] []));
    reflexivity.
Defined.

(* ================================================================== *)
(** ** Facts about the timers *)
(* ================================================================== *)

Section TimersFacts.

Context {C : Type}.
Implicit Types (ts : Timers.t C) (id : positive) (e : positive * (Z * C)).

Lemma elem_of_clearTimeout id ts e :
  e ∈ Timers.pending (Timers.clearTimeout id ts) ↔
  e ∈ Timers.pending ts ∧ e.1 ≠ id.
Proof. simpl. rewrite list_elem_of_filter. tauto. Qed.

Lemma elem_of_setTimeout (c : C) (d : Z) ts e :
  e ∈ Timers.pending (Timers.setTimeout c d ts).2 ↔
  e ∈ Timers.pending ts ∨ e = (Timers.next ts, (d, c)).
Proof. simpl. rewrite elem_of_app, list_elem_of_singleton. tauto. Qed.

Lemma clearTimeout_ids id ts :
  NoDup (Timers.pending ts).*1 →
  NoDup (Timers.pending (Timers.clearTimeout id ts)).*1.
Proof.
  simpl. generalize (Timers.pending ts). intros l.
  induction l as [|e l IH]; simpl; [done|].
  intros [He Hl]%NoDup_cons. rewrite filter_cons.
  destruct (decide (e.1 ≠ id)); [|by apply IH].
  simpl. apply NoDup_cons. split; [|by apply IH].
  intros (e' & Heq & [_ Hin]%list_elem_of_filter)%list_elem_of_fmap.
  apply He. rewrite Heq. by apply list_elem_of_fmap_2.
Qed.

Lemma fire_none id ts :
  (∀ e, e ∈ Timers.pending ts → e.1 ≠ id) → Timers.fire id ts = None.
Proof.
  intros H. unfold Timers.fire.
  destruct (find _ (Timers.pending ts)) as [e|] eqn:He; [|done].
  apply find_some in He as [Hin Heq]. apply list_elem_of_In in Hin.
  apply Pos.eqb_eq in Heq. by destruct (H e Hin).
Qed.

Lemma fire_some id ts (d : Z) (c : C) :
  NoDup (Timers.pending ts).*1 → (id, (d, c)) ∈ Timers.pending ts →
  Timers.fire id ts = Some (c, Timers.clearTimeout id ts).
Proof.
  intros Hnd Hin. unfold Timers.fire.
  destruct (find _ (Timers.pending ts)) as [e|] eqn:He.
  - apply find_some in He as [Hin' Heq]. apply list_elem_of_In in Hin'.
    apply Pos.eqb_eq in Heq.
    assert (e = (id, (d, c))) as ->; [|done].
    apply list_elem_of_lookup in Hin as [n Hn].
    apply list_elem_of_lookup in Hin' as [n' Hn'].
    assert (n' = n) as ->; [|congruence].
    apply (NoDup_lookup _ n' n id Hnd);
      rewrite list_lookup_fmap; [by rewrite Hn', <- Heq|by rewrite Hn].
  - apply list_elem_of_In in Hin.
    pose proof (find_none _ _ He _ Hin) as Hf. simpl in Hf.
    by rewrite Pos.eqb_refl in Hf.
Qed.

End TimersFacts.

(* ================================================================== *)
(** ** Facts about the debounced search *)
(* ================================================================== *)

Section DebounceFacts.

Variable trim : string → string.

#[local] Abbreviation debounced := (MembersModal.debounced trim).
#[local] Abbreviation changed := (MembersModal.changed trim).
#[local] Abbreviation fired := (MembersModal.fired trim).
#[local] Abbreviation step := (MembersModal.step trim).

Lemma clearDebounce_fields (m : MembersModal.t) :
  MembersModal.search (MembersModal.clearDebounce m) = MembersModal.search m ∧
  MembersModal.sent (MembersModal.clearDebounce m) = MembersModal.sent m ∧
  MembersModal.adding (MembersModal.clearDebounce m) = MembersModal.adding m.
Proof. unfold MembersModal.clearDebounce. by destruct (MembersModal.debounceRef m). Qed.

(** The cleanup leaves no timer pending when at most the timer of
    [debounceRef] was. *)
Lemma clearDebounce_pending (m : MembersModal.t) :
  Timers.pending (MembersModal.timers m) = [] ∨
  (∃ id x, MembersModal.debounceRef m = Some id ∧
           Timers.pending (MembersModal.timers m) = [(id, x)]) →
  Timers.pending (MembersModal.timers (MembersModal.clearDebounce m)) = [].
Proof.
  unfold MembersModal.clearDebounce.
  intros [Hp|(id & x & Hr & Hp)].
  - destruct (MembersModal.debounceRef m); simpl; by rewrite Hp.
  - rewrite Hr. simpl. rewrite Hp. rewrite filter_cons. simpl.
    by rewrite decide_False by (by intros ?).
Qed.

(** The effect on a page without pending timers. *)
Lemma searchEffect_cases (board : Board.t) (m : MembersModal.t) :
  Timers.pending (MembersModal.timers m) = [] ∨
  (∃ id x, MembersModal.debounceRef m = Some id ∧
           Timers.pending (MembersModal.timers m) = [(id, x)]) →
  BoardMembersModal.query
    (MembersModal.search (MembersModal.searchEffect trim board m))
    = BoardMembersModal.query (MembersModal.search m) ∧
  MembersModal.sent (MembersModal.searchEffect trim board m)
    = MembersModal.sent m ∧
  MembersModal.adding (MembersModal.searchEffect trim board m)
    = MembersModal.adding m ∧
  (((String.length (trim (BoardMembersModal.query (MembersModal.search m)))
      < 2)%nat ∧
    Timers.pending
      (MembersModal.timers (MembersModal.searchEffect trim board m)) = [] ∧
    BoardMembersModal.results
      (MembersModal.search (MembersModal.searchEffect trim board m)) = [] ∧
    BoardMembersModal.searching
      (MembersModal.search (MembersModal.searchEffect trim board m)) = false) ∨
   ((2 ≤ String.length (trim (BoardMembersModal.query (MembersModal.search m))))%nat ∧
    (∃ id,
       MembersModal.debounceRef (MembersModal.searchEffect trim board m)
         = Some id ∧
       Timers.pending
         (MembersModal.timers (MembersModal.searchEffect trim board m))
         = [(id, (300, (BoardMembersModal.query (MembersModal.search m),
                        board)))]) ∧
    BoardMembersModal.results
      (MembersModal.search (MembersModal.searchEffect trim board m))
      = BoardMembersModal.results (MembersModal.search m) ∧
    BoardMembersModal.searching
      (MembersModal.search (MembersModal.searchEffect trim board m)) = true)).
Proof.
  intros Hp. apply clearDebounce_pending in Hp.
  destruct (clearDebounce_fields m) as (Hs & Hsent & Hadd).
  unfold MembersModal.searchEffect. cbv zeta. rewrite Hs.
  destruct (Nat.ltb_spec
              (String.length (trim (BoardMembersModal.query (MembersModal.search m))))
              2) as [Hlt|Hge].
  - simpl. rewrite ?Hsent, ?Hadd. repeat split; try done. left. by rewrite Hp.
  - simpl. rewrite ?Hsent, ?Hadd, ?Hp, ?Hs. repeat split; try done.
    right. split; [done|]. split; [by eexists|done].
Qed.

Lemma debounced_pending (m : MembersModal.t) :
  debounced m →
  Timers.pending (MembersModal.timers m) = [] ∨
  (∃ id x, MembersModal.debounceRef m = Some id ∧
           Timers.pending (MembersModal.timers m) = [(id, x)]).
Proof. intros [?|(id & board & ? & ? & _)]; [by left|right; by eexists _, _]. Qed.

Lemma searchEffect_debounced (board : Board.t) (m : MembersModal.t) :
  Timers.pending (MembersModal.timers m) = [] ∨
  (∃ id x, MembersModal.debounceRef m = Some id ∧
           Timers.pending (MembersModal.timers m) = [(id, x)]) →
  debounced (MembersModal.searchEffect trim board m).
Proof.
  intros Hp.
  destruct (searchEffect_cases board m Hp)
    as (Hq & _ & _ & [(_ & Hnone & _)|(Hge & (id & Hr & Hone) & _)]).
  - by left.
  - right. exists id, board. rewrite Hq. done.
Qed.

Lemma changed_cases (board : Board.t) (q : string) (m : MembersModal.t) :
  debounced m →
  debounced (changed board q m) ∧
  BoardMembersModal.query (MembersModal.search (changed board q m)) = q ∧
  MembersModal.sent (changed board q m) = MembersModal.sent m ∧
  (((String.length (trim q) < 2)%nat ∧
    Timers.pending (MembersModal.timers (changed board q m)) = [] ∧
    BoardMembersModal.results (MembersModal.search (changed board q m)) = [] ∧
    BoardMembersModal.searching (MembersModal.search (changed board q m))
      = false) ∨
   ((2 ≤ String.length (trim q))%nat ∧
    (∃ id, Timers.pending (MembersModal.timers (changed board q m))
           = [(id, (300, (q, board)))]) ∧
    BoardMembersModal.results (MembersModal.search (changed board q m))
      = BoardMembersModal.results (MembersModal.search m) ∧
    BoardMembersModal.searching (MembersModal.search (changed board q m))
      = true)).
Proof.
  intros Hd. unfold changed, MembersModal.changed.
  set (m1 := MembersModal.clearDebounce
               (MembersModal.with_search
                  (MembersModal.setQuery q (MembersModal.search m)) m)).
  assert (Timers.pending (MembersModal.timers m1) = []) as Hp1.
  { apply clearDebounce_pending. apply debounced_pending in Hd. exact Hd. }
  assert (MembersModal.search m1
          = MembersModal.setQuery q (MembersModal.search m)) as Hs1.
  { unfold m1. by rewrite (proj1 (clearDebounce_fields _)). }
  assert (MembersModal.sent m1 = MembersModal.sent m) as Hsent1.
  { unfold m1. by rewrite (proj1 (proj2 (clearDebounce_fields _))). }
  split; [apply searchEffect_debounced; by left|].
  destruct (searchEffect_cases board m1 (or_introl Hp1))
    as (Hq & Hsent & _ & Hcases).
  rewrite Hq, Hsent, Hs1, Hsent1. split; [done|]. split; [done|].
  rewrite Hs1 in Hcases. simpl in Hcases.
  destruct Hcases as [(? & ? & ? & ?)|(? & (id & _ & ?) & ? & ?)];
    [left|right]; repeat split; try done. by exists id.
Qed.

Lemma fired_cases (id : positive) (m : MembersModal.t) :
  debounced m →
  BoardMembersModal.query (MembersModal.search (fired id m))
    = BoardMembersModal.query (MembersModal.search m) ∧
  (fired id m = m ∨
   (Timers.pending (MembersModal.timers (fired id m)) = [] ∧
    (2 ≤ String.length (trim (BoardMembersModal.query (MembersModal.search m))))%nat ∧
    MembersModal.sent (fired id m) =
      MembersModal.sent m ++
      [MembersModal.SearchUsers
         (trim (BoardMembersModal.query (MembersModal.search m))) 10])).
Proof.
  intros [Hp|(id' & board & Hr & Hp & Hge)];
    unfold fired, MembersModal.fired, Timers.fire; rewrite Hp; simpl.
  - split; [done|by left].
  - destruct (Pos.eqb_spec id' id) as [->|Hne]; simpl.
    + split; [done|]. right. rewrite Hp. rewrite filter_cons. simpl.
      by rewrite decide_False by (by intros ?).
    + split; [done|by left].
Qed.

Lemma step_debounced (m : MembersModal.t) (e : MembersModal.Event) :
  debounced m → debounced (step m e).
Proof.
  intros Hd. destruct e as [board q|id|board response]; simpl.
  - by apply changed_cases.
  - destruct (fired_cases id m Hd) as [Hq [->|(Hp & _)]]; [done|by left].
  - by destruct response.
Qed.

Lemma mounted_debounced (board : Board.t) :
  debounced (MembersModal.mounted trim board).
Proof. apply searchEffect_debounced. by left. Qed.

Lemma steps_debounced (m : MembersModal.t) (es : list MembersModal.Event) :
  debounced m → debounced (foldl step m es).
Proof.
  revert m. induction es as [|e es IH]; intros m Hd; [done|].
  simpl. apply IH. by apply step_debounced.
Qed.

(** Whatever happens to a mounted modal (the query or the board
    changes, timers fire, searches settle, in any order), at most one
    debounce timer is pending: the one [debounceRef] names, due in 300
    ms, for the query on screen, which then has two characters or more
    once trimmed. *)
Theorem search_debounced (board : Board.t) (es : list MembersModal.Event) :
  debounced (foldl step (MembersModal.mounted trim board) es).
Proof. apply steps_debounced, mounted_debounced. Qed.

(** A query shorter than two characters once trimmed empties the
    results at once, stops the spinner and leaves no timer pending: no
    timer that fires afterwards sends a search. *)
Theorem short_query_clears
    (board : Board.t) (q : string) (m : MembersModal.t) (id : positive) :
  debounced m →
  (String.length (trim q) < 2)%nat →
  BoardMembersModal.results (MembersModal.search (changed board q m)) = [] ∧
  BoardMembersModal.searching (MembersModal.search (changed board q m))
    = false ∧
  Timers.pending (MembersModal.timers (changed board q m)) = [] ∧
  fired id (changed board q m) = changed board q m.
Proof.
  intros Hd Hshort.
  destruct (changed_cases board q m Hd)
    as (_ & _ & _ & [(_ & Hp & Hres & Hs)|(Hge & _)]); [|lia].
  repeat split; try done.
  unfold fired, MembersModal.fired, Timers.fire. by rewrite Hp.
Qed.

Lemma changes_cases (board : Board.t) (qs : list string) (q : string)
    (m : MembersModal.t) :
  debounced m →
  debounced (foldl (λ m q, changed board q m) m (qs ++ [q])) ∧
  BoardMembersModal.query
    (MembersModal.search (foldl (λ m q, changed board q m) m (qs ++ [q]))) = q ∧
  MembersModal.sent (foldl (λ m q, changed board q m) m (qs ++ [q]))
    = MembersModal.sent m.
Proof.
  revert m. induction qs as [|q' qs IH]; intros m Hd; simpl.
  - destruct (changed_cases board q m Hd) as (? & ? & ? & _). done.
  - destruct (changed_cases board q' m Hd) as (Hd' & _ & Hsent & _).
    destruct (IH _ Hd') as (? & ? & ->). done.
Qed.

Lemma fires_cases (ids : list positive) (m : MembersModal.t) :
  debounced m →
  MembersModal.sent (foldl (λ m id, fired id m) m ids) = MembersModal.sent m ∨
  MembersModal.sent (foldl (λ m id, fired id m) m ids) =
    MembersModal.sent m ++
    [MembersModal.SearchUsers
       (trim (BoardMembersModal.query (MembersModal.search m))) 10].
Proof.
  revert m. induction ids as [|id ids IH]; intros m Hd; simpl; [by left|].
  destruct (fired_cases id m Hd) as [Hq [->|(Hp & Hge & Hsent)]].
  - by apply IH.
  - right. rewrite <- Hsent.
    assert (∀ m', Timers.pending (MembersModal.timers m') = [] →
                  foldl (λ m id, fired id m) m' ids = m') as Hidle.
    { clear. induction ids as [|id ids IH]; intros m' Hp; [done|].
      simpl. assert (fired id m' = m') as ->; [|by apply IH].
      unfold fired, MembersModal.fired, Timers.fire. by rewrite Hp. }
    by rewrite Hidle.
Qed.

(** A burst of changes of the query, each before the timer of the one
    before has fired, sends nothing while it lasts, and whichever
    timers fire afterwards at most one search is sent: for the last
    value of the query, trimmed, with the limit 10. *)
Theorem burst_sends_one_search
    (board : Board.t) (qs : list string) (q : string) (ids : list positive)
    (m : MembersModal.t) :
  debounced m →
  MembersModal.sent (foldl (λ m q, changed board q m) m (qs ++ [q]))
    = MembersModal.sent m ∧
  (MembersModal.sent
     (foldl (λ m id, fired id m)
        (foldl (λ m q, changed board q m) m (qs ++ [q])) ids)
   = MembersModal.sent m ∨
   MembersModal.sent
     (foldl (λ m id, fired id m)
        (foldl (λ m q, changed board q m) m (qs ++ [q])) ids)
   = MembersModal.sent m ++ [MembersModal.SearchUsers (trim q) 10]).
Proof.
  intros Hd.
  destruct (changes_cases board qs q m Hd) as (Hd' & Hq & Hsent).
  split; [done|].
  destruct (fires_cases ids _ Hd') as [-> | ->]; rewrite Hsent; [by left|].
  right. by rewrite Hq.
Qed.

(** Every search the modal has sent was for a trimmed query of two
    characters or more, with the limit 10; the modal sends a search
    only when a debounce timer fires, and then for the query that is on
    screen. *)
Theorem search_requests (board : Board.t) (es : list MembersModal.Event) :
  Forall
    (λ r, ∃ q, r = MembersModal.SearchUsers (trim q) 10 ∧
               (2 ≤ String.length (trim q))%nat)
    (MembersModal.sent (foldl step (MembersModal.mounted trim board) es)) ∧
  (∀ e,
     MembersModal.sent
       (step (foldl step (MembersModal.mounted trim board) es) e)
     = MembersModal.sent (foldl step (MembersModal.mounted trim board) es) ∨
     ∃ id, e = MembersModal.Fired id ∧
       MembersModal.sent
         (step (foldl step (MembersModal.mounted trim board) es) e)
       = MembersModal.sent (foldl step (MembersModal.mounted trim board) es) ++
         [MembersModal.SearchUsers
            (trim (BoardMembersModal.query
                     (MembersModal.search
                        (foldl step (MembersModal.mounted trim board) es))))
            10]).
Proof.
  assert (∀ m e, debounced m →
            MembersModal.sent (step m e) = MembersModal.sent m ∨
            ∃ id, e = MembersModal.Fired id ∧
              (2 ≤ String.length
                     (trim (BoardMembersModal.query (MembersModal.search m))))%nat ∧
              MembersModal.sent (step m e) =
                MembersModal.sent m ++
                [MembersModal.SearchUsers
                   (trim (BoardMembersModal.query (MembersModal.search m))) 10])
    as Hstep.
  { intros m e Hd. destruct e as [b q|id|b response]; simpl.
    - left. by apply changed_cases.
    - destruct (fired_cases id m Hd) as [_ [->|(_ & Hge & Hsent)]];
        [by left|right; by exists id].
    - by left. }
  split.
  - assert (∀ m, debounced m →
              Forall (λ r, ∃ q, r = MembersModal.SearchUsers (trim q) 10 ∧
                                (2 ≤ String.length (trim q))%nat)
                (MembersModal.sent m) →
              Forall (λ r, ∃ q, r = MembersModal.SearchUsers (trim q) 10 ∧
                                (2 ≤ String.length (trim q))%nat)
                (MembersModal.sent (foldl step m es))) as Hall.
    { induction es as [|e es IH]; intros m Hd Hm; [done|].
      simpl. apply IH; [by apply step_debounced|].
      destruct (Hstep m e Hd) as [->|(id & _ & Hge & ->)]; [done|].
      apply Forall_app. split; [done|].
      apply Forall_singleton. by eexists. }
    apply Hall; [apply mounted_debounced|].
    destruct (searchEffect_cases board MembersModal.initial (or_introl eq_refl))
      as (_ & Hsent & _).
    unfold MembersModal.mounted. rewrite Hsent. by apply Forall_nil.
  - intros e.
    destruct (Hstep _ e (steps_debounced _ es (mounted_debounced board)))
      as [?|(id & ? & _ & ?)]; [by left|right; by exists id].
Qed.

End DebounceFacts.

(** [short_query_clears] when "a" is typed into a modal that has just
    been mounted. *)
Lemma short_query_clears_witness :
  BoardMembersModal.results
    (MembersModal.search
       (MembersModal.changed (λ q, q) (Sample.board [] []) "a"
          (MembersModal.mounted (λ q, q) (Sample.board [] [])))) = [] ∧
  BoardMembersModal.searching
    (MembersModal.search
       (MembersModal.changed (λ q, q) (Sample.board [] []) "a"
          (MembersModal.mounted (λ q, q) (Sample.board [] [])))) = false ∧
  Timers.pending
    (MembersModal.timers
       (MembersModal.changed (λ q, q) (Sample.board [] []) "a"
          (MembersModal.mounted (λ q, q) (Sample.board [] [])))) = [] ∧
  MembersModal.fired (λ q, q) 1%positive
    (MembersModal.changed (λ q, q) (Sample.board [] []) "a"
       (MembersModal.mounted (λ q, q) (Sample.board [] [])))
  = MembersModal.changed (λ q, q) (Sample.board [] []) "a"
      (MembersModal.mounted (λ q, q) (Sample.board [] [])).
Proof.
  apply (short_query_clears (λ q, q) (Sample.board [] []) "a"
           (MembersModal.mounted (λ q, q) (Sample.board [] [])) 1%positive).
  - left. reflexivity.
  - simpl. lia.
Defined.

(** [burst_sends_one_search] when "a", "ab" and "abc" are typed in a
    row and three timers fire afterwards. *)
Lemma burst_sends_one_search_witness :
  MembersModal.sent
    (foldl (λ m q, MembersModal.changed (λ q, q) (Sample.board [] []) q m)
       (MembersModal.mounted (λ q, q) (Sample.board [] []))
       (["a"; "ab"] ++ ["abc"]))
  = MembersModal.sent (MembersModal.mounted (λ q, q) (Sample.board [] [])) ∧
  (MembersModal.sent
     (foldl (λ m id, MembersModal.fired (λ q, q) id m)
        (foldl (λ m q, MembersModal.changed (λ q, q) (Sample.board [] []) q m)
           (MembersModal.mounted (λ q, q) (Sample.board [] []))
           (["a"; "ab"] ++ ["abc"]))
        [1%positive; 2%positive; 3%positive])
   = MembersModal.sent (MembersModal.mounted (λ q, q) (Sample.board [] [])) ∨
   MembersModal.sent
     (foldl (λ m id, MembersModal.fired (λ q, q) id m)
        (foldl (λ m q, MembersModal.changed (λ q, q) (Sample.board [] []) q m)
           (MembersModal.mounted (λ q, q) (Sample.board [] []))
           (["a"; "ab"] ++ ["abc"]))
        [1%positive; 2%positive; 3%positive])
   = MembersModal.sent (MembersModal.mounted (λ q, q) (Sample.board [] []))
     ++ [MembersModal.SearchUsers "abc" 10]).
Proof.
  apply (burst_sends_one_search (λ q, q) (Sample.board [] []) ["a"; "ab"] "abc"
           [1%positive; 2%positive; 3%positive]
           (MembersModal.mounted (λ q, q) (Sample.board [] []))).
  left. reflexivity.
Defined.

(* ================================================================== *)
(** ** Facts about the panel and about adding a member *)
(* ================================================================== *)

Lemma filter_nil_all {A : Type} (P : A → Prop) `{Hdec : !∀ x, Decision (P x)}
    (l : list A) :
  filter P l = [] ↔ ∀ x, x ∈ l → ¬ P x.
Proof.
  split.
  - intros H x Hx HP. by apply (filter_nil_not_elem_of P l x).
  - intros H. induction l as [|a l IH]; [done|].
    rewrite filter_cons. rewrite decide_False by (apply H; by left).
    apply IH. intros x Hx. apply H. by right.
Qed.

(** Once a search has settled for a query of two characters or more,
    the panel shows no spinner; it says "No users found" exactly when
    the search failed or every user it returned is the owner or a
    member already, so a failed search looks like a search without a
    match; otherwise it lists the users that are neither. *)
Theorem panel_after_search
    (trim : string → string) (board : Board.t)
    (response : option (list UserSearchResult.t))
    (s : BoardMembersModal.State) :
  (2 ≤ String.length (trim (BoardMembersModal.query s)))%nat →
  (MembersModal.panel trim (BoardMembersModal.searchSettled board response s)
     = MembersModal.NoUsersFound ↔
   ∀ users, response = Some users →
     ∀ u, u ∈ users →
       UserSearchResult.id u = Board.owner_id board ∨
       ∃ m, m ∈ Board.members board ∧
            BoardMember.user_id m = UserSearchResult.id u) ∧
  (MembersModal.panel trim (BoardMembersModal.searchSettled board response s)
     ≠ MembersModal.NoUsersFound →
   ∃ users,
     response = Some users ∧
     MembersModal.panel trim (BoardMembersModal.searchSettled board response s)
       = MembersModal.UserList
           (filter (λ u, UserSearchResult.id u
                           ∉ BoardMembersModal.existingIds board) users)).
Proof.
  intros Hlen. unfold MembersModal.panel.
  assert (BoardMembersModal.query
            (BoardMembersModal.searchSettled board response s)
          = BoardMembersModal.query s) as -> by (by destruct response).
  rewrite (proj2 (Nat.leb_le _ _) Hlen).
  assert (BoardMembersModal.searching
            (BoardMembersModal.searchSettled board response s) = false)
    as -> by (by destruct response).
  destruct response as [users|]; simpl.
  2:{ split; [split; [by intros _ ? [=]|done]|done]. }
  set (shown := filter _ users).
  destruct (Nat.eqb_spec (length shown) 0) as [Hz|Hnz].
  - split; [|done]. split; [|done]. intros _ ? [= <-] u Hu.
    apply nil_length_inv in Hz.
    pose proof (proj1 (filter_nil_all _ _) Hz u Hu) as Hin.
    apply dec_stable in Hin. by apply elem_of_existingIds in Hin.
  - split; [|intros _; by exists users].
    split; [done|]. intros Hall. exfalso. apply Hnz.
    assert (shown = []) as ->; [|done].
    apply filter_nil_all. intros u Hu Hnot. apply Hnot.
    apply elem_of_existingIds. by apply (Hall users).
Qed.

(** [panel_after_search] for the query ["ab"] and a search that
    returned the owner only. *)
Lemma panel_after_search_witness :
  MembersModal.panel (λ q, q)
    (BoardMembersModal.searchSettled (Sample.board [] [])
       (Some [UserSearchResult.mk "owner" "O" "W" "o@w"])
       {| BoardMembersModal.query := "ab";
          BoardMembersModal.results := [];
          BoardMembersModal.searching := true |})
  = MembersModal.NoUsersFound.
Proof.
  apply (panel_after_search (λ q, q) (Sample.board [] [])
           (Some [UserSearchResult.mk "owner" "O" "W" "o@w"])
           {| BoardMembersModal.query := "ab";
              BoardMembersModal.results := [];
              BoardMembersModal.searching := true |}).
  - simpl. lia.
  - intros users [= <-] u Hu. left.
    apply list_elem_of_singleton in Hu. by rewrite Hu.
Defined.

(** When [addMember] settles, [adding] is reset whatever the outcome.
    Results that held neither the owner nor a member still hold
    neither.  After a fulfilled call the user that was added has left
    the results and every other result is kept, so the results hold no
    member of the board with its new member either; after a rejected
    call the results are the same. *)
Theorem handleAdd_keeps_results_fresh
    (board : Board.t) (user : UserSearchResult.t) (role : BoardRole)
    (outcome : MembersModal.Settled) (m : MembersModal.t) :
  (∀ u, u ∈ BoardMembersModal.results (MembersModal.search m) →
        UserSearchResult.id u ∉ BoardMembersModal.existingIds board) →
  MembersModal.adding (MembersModal.handleAdd_settled user role outcome m)
    = None ∧
  (∀ u,
     u ∈ BoardMembersModal.results
           (MembersModal.search
              (MembersModal.handleAdd_settled user role outcome m)) →
     u ∈ BoardMembersModal.results (MembersModal.search m) ∧
     UserSearchResult.id u ∉ BoardMembersModal.existingIds board) ∧
  (outcome = MembersModal.Fulfilled →
   (∀ u,
      u ∈ BoardMembersModal.results
            (MembersModal.search
               (MembersModal.handleAdd_settled user role outcome m)) ↔
      u ∈ BoardMembersModal.results (MembersModal.search m) ∧
      UserSearchResult.id u ≠ UserSearchResult.id user) ∧
   (∀ board',
      Board.owner_id board' = Board.owner_id board →
      (∀ mem, mem ∈ Board.members board' →
              mem ∈ Board.members board ∨
              BoardMember.user_id mem = UserSearchResult.id user) →
      ∀ u,
        u ∈ BoardMembersModal.results
              (MembersModal.search
                 (MembersModal.handleAdd_settled user role outcome m)) →
        UserSearchResult.id u ∉ BoardMembersModal.existingIds board')) ∧
  (outcome ≠ MembersModal.Fulfilled →
   BoardMembersModal.results
     (MembersModal.search (MembersModal.handleAdd_settled user role outcome m))
   = BoardMembersModal.results (MembersModal.search m)).
Proof.
  intros Hfresh.
  assert (∀ u,
    u ∈ BoardMembersModal.results
          (MembersModal.search
             (MembersModal.handleAdd_settled user role outcome m)) →
    u ∈ BoardMembersModal.results (MembersModal.search m)) as Hsub.
  { intros u. destruct outcome; simpl; [|done..].
    by intros [_ ?]%list_elem_of_filter. }
  split; [done|]. split; [|split].
  - intros u Hu. split; [by apply Hsub|by apply Hfresh, Hsub].
  - intros ->. simpl. split.
    + intros u. rewrite list_elem_of_filter. tauto.
    + intros board' Hown Hmem u [Hne Hu]%list_elem_of_filter.
      rewrite elem_of_existingIds. intros [Hid|(mem & Hin & Hid)].
      * apply (Hfresh u Hu). apply elem_of_existingIds. left. congruence.
      * destruct (Hmem mem Hin) as [Hold|Hnew]; [|congruence].
        apply (Hfresh u Hu). apply elem_of_existingIds. right. by exists mem.
  - intros Hne. by destruct outcome.
Qed.

(** [handleAdd_keeps_results_fresh] when the user "u1" of the results
    ["u1"; "u2"] is added. *)
Lemma handleAdd_keeps_results_fresh_witness :
  MembersModal.adding
    (MembersModal.handleAdd_settled
       (UserSearchResult.mk "u1" "U" "One" "u@1") editor MembersModal.Fulfilled
       (MembersModal.with_search
          {| BoardMembersModal.query := "u";
             BoardMembersModal.results :=
               [UserSearchResult.mk "u1" "U" "One" "u@1";
                UserSearchResult.mk "u2" "U" "Two" "u@2"];
             BoardMembersModal.searching := false |}
          MembersModal.initial))
  = None.
Proof.
  apply (handleAdd_keeps_results_fresh (Sample.board [] [])).
  intros u Hu. simpl in Hu.
  apply elem_of_cons in Hu as [->|Hu];
    [|apply list_elem_of_singleton in Hu as ->];
    simpl; apply (bool_decide_unpack _); vm_compute; exact I.
Defined.

(* ================================================================== *)
(** ** Facts about the toast *)
(* ================================================================== *)

Section ToastFacts.

Implicit Types (s : Toast.t) (id : positive) (d : Z).

Lemma fire_inv {C : Type} id (ts ts' : Timers.t C) (c : C) :
  Timers.fire id ts = Some (c, ts') →
  (∃ d, (id, (d, c)) ∈ Timers.pending ts) ∧ ts' = Timers.clearTimeout id ts.
Proof.
  unfold Timers.fire.
  destruct (find _ (Timers.pending ts)) as [[i [d c']]|] eqn:He; [|done].
  intros [= <- <-]. apply find_some in He as [Hin Heq].
  apply Pos.eqb_eq in Heq. simpl in Heq. subst i.
  split; [|done]. exists d. by apply list_elem_of_In.
Qed.

Lemma cleanup_sub s e :
  e ∈ Timers.pending (Toast.timers (Toast.cleanup s)) →
  e ∈ Timers.pending (Toast.timers s) ∧ Toast.timer s ≠ Some e.1.
Proof.
  unfold Toast.cleanup. destruct (Toast.timer s) as [t|] eqn:Ht.
  - simpl. intros [Hne Hin]%list_elem_of_filter. split; [done|]. congruence.
  - intros Hin. by split.
Qed.

Lemma cleanup_timer s : Toast.timer (Toast.cleanup s) = Toast.timer s.
Proof.
  unfold Toast.cleanup. destruct (Toast.timer s) eqn:Ht; simpl; congruence.
Qed.

Lemma cleanup_next s :
  Timers.next (Toast.timers (Toast.cleanup s)) = Timers.next (Toast.timers s).
Proof. unfold Toast.cleanup. by destruct (Toast.timer s). Qed.

Lemma cleanup_wf s :
  Toast.wf s →
  Toast.wf (Toast.cleanup s) ∧
  ∀ id d, (id, (d, Toast.CloseLater))
            ∉ Timers.pending (Toast.timers (Toast.cleanup s)).
Proof.
  intros (Hnd & Hlt & Ht & Hcl & Hc). split.
  - unfold Toast.wf. rewrite cleanup_timer, cleanup_next.
    split; [|split; [|split; [|split]]].
    + unfold Toast.cleanup. destruct (Toast.timer s); [|done].
      by apply (clearTimeout_ids p).
    + intros e [He _]%cleanup_sub. by apply Hlt.
    + done.
    + intros id d [Hin _]%cleanup_sub. by eapply Hcl.
    + intros id d [Hin _]%cleanup_sub. by eapply Hc.
  - intros id d [Hin Hne]%cleanup_sub. apply Hcl in Hin. done.
Qed.

Lemma effect_wf d s :
  Toast.wf s →
  (∀ id d', (id, (d', Toast.CloseLater))
              ∉ Timers.pending (Toast.timers s)) →
  Toast.wf (Toast.effect d s).
Proof.
  intros (Hnd & Hlt & Ht & Hcl & Hc) Hno. unfold Toast.effect, Toast.wf. simpl.
  split; [|split; [|split; [|split]]].
  - rewrite fmap_app. apply NoDup_app.
    split; [done|]. split; [|apply NoDup_singleton].
    intros i (e & -> & He)%list_elem_of_fmap Hi.
    apply list_elem_of_singleton in Hi. apply Hlt in He. simpl in Hi. lia.
  - intros e [He| ->%list_elem_of_singleton]%elem_of_app;
      [apply Hlt in He|simpl]; lia.
  - intros id [= <-]. lia.
  - intros id d' [Hin|Hin%list_elem_of_singleton]%elem_of_app.
    + by destruct (Hno id d').
    + by injection Hin as -> _.
  - intros id d' [Hin|Hin%list_elem_of_singleton]%elem_of_app; [|done].
    split; [by eapply Hc|].
    intros [= <-]. apply Hlt in Hin. simpl in Hin. lia.
Qed.

Lemma fired_wf id s : Toast.wf s → Toast.wf (Toast.fired id s).
Proof.
  intros Hwf. pose proof Hwf as (Hnd & Hlt & Ht & Hcl & Hc).
  unfold Toast.fired.
  destruct (Timers.fire id (Toast.timers s)) as [[[|] ts]|] eqn:Hf; [| |done].
  - apply fire_inv in Hf as [(d & Hin) ->]. unfold Toast.wf. simpl.
    split; [|split; [|split; [|split]]].
    + rewrite fmap_app. apply NoDup_app.
      split; [by apply (clearTimeout_ids id)|].
      split; [|apply NoDup_singleton].
      intros i (e & -> & [_ He]%list_elem_of_filter)%list_elem_of_fmap Hi.
      apply list_elem_of_singleton in Hi. apply Hlt in He. simpl in Hi. lia.
    + intros e [[_ He]%list_elem_of_filter| ->%list_elem_of_singleton]%elem_of_app;
        [apply Hlt in He|simpl]; lia.
    + intros i Hi. apply Ht in Hi. lia.
    + intros i d' [[_ Hi]%list_elem_of_filter|Hi%list_elem_of_singleton]%elem_of_app;
        [by eapply Hcl|done].
    + intros i d' [[_ Hi]%list_elem_of_filter|Hi%list_elem_of_singleton]%elem_of_app.
      * by eapply Hc.
      * injection Hi as -> ->. split; [done|].
        intros Heq. apply Ht in Heq. lia.
  - apply fire_inv in Hf as [(d & Hin) ->]. unfold Toast.wf. simpl.
    split; [|split; [|split; [|split]]].
    + by apply (clearTimeout_ids id).
    + intros e [_ He]%list_elem_of_filter. by apply Hlt.
    + done.
    + intros i d' [_ Hi]%list_elem_of_filter. by eapply Hcl.
    + intros i d' [_ Hi]%list_elem_of_filter. by eapply Hc.
Qed.

Lemma step_wf s (e : Toast.Event) : Toast.wf s → Toast.wf (Toast.step s e).
Proof.
  intros Hwf. destruct e as [d| | |id]; simpl.
  - destruct (cleanup_wf s Hwf) as [Hwf' Hno]. by apply effect_wf.
  - by apply cleanup_wf.
  - exact Hwf.
  - by apply fired_wf.
Qed.

Lemma mounted_wf (duration : option Z) : Toast.wf (Toast.mounted duration).
Proof.
  apply effect_wf.
  - unfold Toast.wf. simpl. split; [apply NoDup_nil_2|].
    split; [by intros e ?%elem_of_nil|]. split; [done|].
    split; by intros id d ?%elem_of_nil.
  - intros id d' Hin. by apply elem_of_nil in Hin.
Qed.

Lemma steps_wf s (es : list Toast.Event) :
  Toast.wf s → Toast.wf (foldl Toast.step s es).
Proof.
  revert s. induction es as [|e es IH]; intros s Hwf; [done|].
  simpl. apply IH. by apply step_wf.
Qed.

(** Whatever happens to a toast (re-renders with another duration or
    another [onClose], clicks, timers that fire, the unmount), at most
    one countdown is pending, and it is the timer the cleanup would
    clear; every pending call of [onClose] is due in 300 ms. *)
Theorem toast_one_countdown (duration : option Z) (es : list Toast.Event) :
  (∀ id d id' d',
     (id, (d, Toast.CloseLater))
       ∈ Timers.pending (Toast.timers (foldl Toast.step (Toast.mounted duration) es)) →
     (id', (d', Toast.CloseLater))
       ∈ Timers.pending (Toast.timers (foldl Toast.step (Toast.mounted duration) es)) →
     id = id' ∧ d = d' ∧
     Toast.timer (foldl Toast.step (Toast.mounted duration) es) = Some id) ∧
  (∀ id d,
     (id, (d, Toast.Close))
       ∈ Timers.pending (Toast.timers (foldl Toast.step (Toast.mounted duration) es)) →
     d = 300).
Proof.
  pose proof (steps_wf _ es (mounted_wf duration)) as (Hnd & _ & _ & Hcl & Hc).
  split.
  - intros id d id' d' Hin Hin'.
    pose proof (Hcl _ _ Hin) as Ht. pose proof (Hcl _ _ Hin') as Ht'.
    assert (id' = id) as -> by congruence. split; [done|]. split; [|done].
    apply list_elem_of_lookup in Hin as [n Hn].
    apply list_elem_of_lookup in Hin' as [n' Hn'].
    assert (n' = n) as ->; [|congruence].
    apply (NoDup_lookup _ n' n id Hnd);
      rewrite list_lookup_fmap; [by rewrite Hn'|by rewrite Hn].
  - intros id d Hin. by apply (Hc id d).
Qed.

(** A toast that is unmounted before its countdown has fired, however
    often it was rendered again with another duration, leaves no timer
    pending: [onClose] is not called, then or later. *)
Theorem unmount_cancels_countdown
    (duration : option Z) (durations : list Z) (id : positive) :
  Timers.pending
    (Toast.timers
       (Toast.unmounted
          (foldl (λ s d, Toast.rerendered d s) (Toast.mounted duration)
             durations))) = [] ∧
  Toast.closed
    (Toast.fired id
       (Toast.unmounted
          (foldl (λ s d, Toast.rerendered d s) (Toast.mounted duration)
             durations))) = 0%nat.
Proof.
  assert (∀ s, Toast.wf s → Toast.closed s = 0%nat →
               (∀ i d, (i, (d, Toast.Close))
                         ∉ Timers.pending (Toast.timers s)) →
               Timers.pending
                 (Toast.timers
                    (Toast.unmounted
                       (foldl (λ s d, Toast.rerendered d s) s durations)))
               = [] ∧
               Toast.closed
                 (foldl (λ s d, Toast.rerendered d s) s durations) = 0%nat)
    as Hgen.
  { induction durations as [|d ds IH]; intros s Hwf Hclosed Hnoclose.
    - split; [|done]. simpl.
      destruct (cleanup_wf s Hwf) as [_ Hno].
      destruct (Timers.pending (Toast.timers (Toast.cleanup s)))
        as [|[i [d' [|]]] l] eqn:Hp; [done| |].
      + destruct (Hno i d'). rewrite ?Hp. by left.
      + destruct (Hnoclose i d').
        apply (cleanup_sub s (i, (d', Toast.Close))). rewrite ?Hp. by left.
    - simpl. apply IH.
      + by apply (step_wf s (Toast.Rerendered d)).
      + unfold Toast.rerendered, Toast.effect, Toast.cleanup. simpl.
        by destruct (Toast.timer s).
      + intros i d' Hin. unfold Toast.rerendered, Toast.effect in Hin.
        simpl in Hin.
        apply elem_of_app in Hin as [Hin|Hin%list_elem_of_singleton];
          [|done].
        apply (Hnoclose i d'). by apply cleanup_sub in Hin as [Hin _]. }
  destruct (Hgen (Toast.mounted duration) (mounted_wf duration) eq_refl)
    as [Hp Hc].
  { intros i d Hin. unfold Toast.mounted, Toast.effect in Hin. simpl in Hin.
    by apply list_elem_of_singleton in Hin. }
  split; [done|].
  unfold Toast.fired, Timers.fire. rewrite Hp. simpl.
  unfold Toast.unmounted, Toast.cleanup.
  by destruct (Toast.timer _).
Qed.

Lemma close_stays s (e : Toast.Event) id :
  Toast.wf s → e ≠ Toast.Fired id →
  (id, (300, Toast.Close)) ∈ Timers.pending (Toast.timers s) →
  (id, (300, Toast.Close)) ∈ Timers.pending (Toast.timers (Toast.step s e)).
Proof.
  intros (Hnd & Hlt & Ht & Hcl & Hc) Hne Hin.
  assert ((id, (300, Toast.Close))
            ∈ Timers.pending (Toast.timers (Toast.cleanup s))) as Hclean.
  { unfold Toast.cleanup. destruct (Toast.timer s) as [t|] eqn:Htimer; [|done].
    simpl. apply list_elem_of_filter. split; [|done]. simpl.
    intros ->. by destruct (proj2 (Hc _ _ Hin)). }
  destruct e as [d| | |id']; simpl.
  - unfold Toast.rerendered, Toast.effect. simpl. apply elem_of_app. by left.
  - exact Hclean.
  - exact Hin.
  - assert (id' ≠ id) as Hid by congruence.
    unfold Toast.fired.
    destruct (Timers.fire id' (Toast.timers s)) as [[[|] ts]|] eqn:Hf;
      [| |done]; apply fire_inv in Hf as [_ ->]; simpl.
    + apply elem_of_app. left. apply list_elem_of_filter. split; [|done].
      simpl. congruence.
    + apply list_elem_of_filter. split; [|done]. simpl. congruence.
Qed.

(** Once the countdown has fired, the call of [onClose] is pending,
    due in 300 ms, and nothing cancels it: not a re-render, not a
    click, not the unmount.  When its timer fires, [onClose] is
    called. *)
Theorem close_cannot_be_cancelled
    (s : Toast.t) (id : positive) (d : Z) (es : list Toast.Event) :
  Toast.wf s →
  (id, (d, Toast.CloseLater)) ∈ Timers.pending (Toast.timers s) →
  ∃ id',
    (id', (300, Toast.Close))
      ∈ Timers.pending (Toast.timers (Toast.fired id s)) ∧
    Toast.closed (Toast.fired id s) = Toast.closed s ∧
    (Forall (λ e, e ≠ Toast.Fired id') es →
     (id', (300, Toast.Close))
       ∈ Timers.pending
           (Toast.timers (foldl Toast.step (Toast.fired id s) es)) ∧
     Toast.closed
       (Toast.fired id' (foldl Toast.step (Toast.fired id s) es))
     = S (Toast.closed (foldl Toast.step (Toast.fired id s) es))).
Proof.
  intros Hwf Hin.
  pose proof (fired_wf id s Hwf) as Hwf1.
  pose proof Hwf as (Hnd & _).
  exists (Timers.next (Timers.clearTimeout id (Toast.timers s))).
  assert (Toast.fired id s =
          {| Toast.timers :=
               (Timers.setTimeout Toast.Close 300
                  (Timers.clearTimeout id (Toast.timers s))).2;
             Toast.timer := Toast.timer s;
             Toast.closed := Toast.closed s |}) as Hfired.
  { unfold Toast.fired. by rewrite (fire_some id _ d Toast.CloseLater Hnd Hin). }
  split; [|split].
  - rewrite Hfired. simpl. apply elem_of_app. right.
    by apply list_elem_of_singleton.
  - by rewrite Hfired.
  - intros Hes.
    assert (∀ s', Toast.wf s' →
              (Timers.next (Timers.clearTimeout id (Toast.timers s)),
               (300, Toast.Close)) ∈ Timers.pending (Toast.timers s') →
              (Timers.next (Timers.clearTimeout id (Toast.timers s)),
               (300, Toast.Close))
                ∈ Timers.pending (Toast.timers (foldl Toast.step s' es)) ∧
              Toast.wf (foldl Toast.step s' es)) as Hstay.
    { clear Hfired. induction es as [|e es IH]; intros s' Hwf' Hin'; [done|].
      apply Forall_cons in Hes as [He Hes]. simpl.
      apply (IH Hes); [by apply step_wf|by apply close_stays]. }
    destruct (Hstay (Toast.fired id s) Hwf1) as [Hthere Hwf2].
    { rewrite Hfired. simpl. apply elem_of_app. right.
      by apply list_elem_of_singleton. }
    split; [done|].
    unfold Toast.fired at 1.
    by rewrite (fire_some _ _ 300 Toast.Close (proj1 Hwf2) Hthere).
Qed.

End ToastFacts.

(** [close_cannot_be_cancelled] for a toast with the default duration
    that is unmounted after its countdown has fired. *)
Lemma close_cannot_be_cancelled_witness :
  ∃ id',
    (id', (300, Toast.Close))
      ∈ Timers.pending
          (Toast.timers (Toast.fired 1%positive (Toast.mounted None))) ∧
    Toast.closed (Toast.fired 1%positive (Toast.mounted None)) = 0%nat ∧
    (Forall (λ e, e ≠ Toast.Fired id') [Toast.Unmounted] →
     (id', (300, Toast.Close))
       ∈ Timers.pending
           (Toast.timers
              (foldl Toast.step (Toast.fired 1%positive (Toast.mounted None))
                 [Toast.Unmounted])) ∧
     Toast.closed
       (Toast.fired id'
          (foldl Toast.step (Toast.fired 1%positive (Toast.mounted None))
             [Toast.Unmounted]))
     = S (Toast.closed
            (foldl Toast.step (Toast.fired 1%positive (Toast.mounted None))
               [Toast.Unmounted]))).
Proof.
  apply (close_cannot_be_cancelled (Toast.mounted None) 1%positive 3000
           [Toast.Unmounted]).
  - apply mounted_wf.
  - vm_compute. left.
Defined.
